(** * MuseTalk gatekeeper (nodes/MuseTalkNode.py)

    A shallow embedding of the FastAPI gatekeeper that serialises MuseTalk
    inference jobs behind one asyncio lock and reports each job's result
    over a WebSocket registered under the job's id.

    The program runs on one asyncio event loop.  A coroutine runs without
    interruption from one suspension point ([await] that really waits) to
    the next, so every coroutine is embedded as the list of its segments,
    each a function on the process state, and the event loop as a step
    function that runs one segment of one coroutine.  What the outside
    world answers (request bodies, random bytes, the backend's reply,
    socket failures) comes with the label of the step. *)

From Stdlib Require Import ZArith String Ascii List Lia.
From stdpp Require Import base option list gmap strings.

Local Set Warnings "-register-all".

(** ** Python values *)

(** The values the program handles: what [json.loads] produces for the
    request body and what the Gradio client returns.  A Python tuple is a
    [PList]; dictionaries have string keys and keep insertion order.
    Numbers are integers: the program only passes numbers on. *)
Inductive pyval : Type :=
| PNone
| PBool (b : bool)
| PInt (n : Z)
| PStr (s : string)
| PList (l : list pyval)
| PDict (d : list (string * pyval)).

(** Instances of Python's [Exception] class, with the text [str(e)]
    gives.  Both handlers of the program name [Exception]; what lies
    outside that class (task cancellation, interpreter exit) is not part of
    the embedding: the program cancels no task. *)
Record exn : Type := Exn { exc_class : string; exc_str : string }.

Definition py_str_exn (e : exn) : string := exc_str e.

(** [repr] of a string key without quotes or escapes in it. *)
Definition py_repr_str (k : string) : string := "'" +:+ k +:+ "'".

Definition KeyError (key_repr : string) : exn := Exn "KeyError" key_repr.
Definition ValueError (msg : string) : exn := Exn "ValueError" msg.
Definition TypeError (msg : string) : exn := Exn "TypeError" msg.
Definition IndexError (msg : string) : exn := Exn "IndexError" msg.
Definition AttributeError (msg : string) : exn := Exn "AttributeError" msg.
Definition RuntimeError (msg : string) : exn := Exn "RuntimeError" msg.
Definition FileNotFoundError (msg : string) : exn := Exn "FileNotFoundError" msg.

Definition py_type_name (v : pyval) : string :=
  match v with
  | PNone => "NoneType"
  | PBool _ => "bool"
  | PInt _ => "int"
  | PStr _ => "str"
  | PList _ => "list"
  | PDict _ => "dict"
  end.

Fixpoint assoc_get (k : string) (d : list (string * pyval)) : option pyval :=
  match d with
  | [] => None
  | (k', v) :: d' => if String.eqb k k' then Some v else assoc_get k d'
  end.

(** [v[k]] for a string [k]. *)
Definition py_getitem (v : pyval) (k : string) : exn + pyval :=
  match v with
  | PDict d =>
      match assoc_get k d with
      | Some x => inr x
      | None => inl (KeyError (py_repr_str k))
      end
  | PList _ => inl (TypeError "list indices must be integers or slices, not str")
  | PStr _ => inl (TypeError "string indices must be integers, not 'str'")
  | _ => inl (TypeError ("'" +:+ py_type_name v +:+ "' object is not subscriptable"))
  end.

(** [v[0]]. *)
Definition py_getitem0 (v : pyval) : exn + pyval :=
  match v with
  | PList (x :: _) => inr x
  | PList [] => inl (IndexError "tuple index out of range")
  | PStr (String c _) => inr (PStr (String c EmptyString))
  | PStr EmptyString => inl (IndexError "string index out of range")
  | PDict _ => inl (KeyError "0")
  | _ => inl (TypeError ("'" +:+ py_type_name v +:+ "' object is not subscriptable"))
  end.

(** [v.get(k)]. *)
Definition py_get (v : pyval) (k : string) : exn + pyval :=
  match v with
  | PDict d => inr (default PNone (assoc_get k d))
  | _ => inl (AttributeError
                ("'" +:+ py_type_name v +:+ "' object has no attribute 'get'"))
  end.

(** Truth value, as [not v] tests it. *)
Definition py_truthy (v : pyval) : bool :=
  match v with
  | PNone => false
  | PBool b => b
  | PInt n => negb (n =? 0)%Z
  | PStr s => negb (String.eqb s "")
  | PList l => match l with [] => false | _ => true end
  | PDict d => match d with [] => false | _ => true end
  end.

(** [os.path.basename] (posixpath): what follows the last slash. *)
Fixpoint after_last_slash (p acc : string) : string :=
  match p with
  | EmptyString => acc
  | String c r =>
      if Ascii.eqb c "/" then after_last_slash r r else after_last_slash r acc
  end.

Definition basename (p : string) : string := after_last_slash p p.

Fixpoint has_slash (p : string) : bool :=
  match p with
  | EmptyString => false
  | String c r => Ascii.eqb c "/" || has_slash r
  end.

Definition os_path_basename (v : pyval) : exn + pyval :=
  match v with
  | PStr p => inr (PStr (basename p))
  | _ => inl (TypeError ("expected str, bytes or os.PathLike object, not "
                           +:+ py_type_name v))
  end.

(** ** uuid.uuid4 and its text *)

(** [uuid.uuid4()] is [UUID(bytes=os.urandom(16), version=4)]: the 128-bit
    number read from the random bytes with the variant bits set to 10 and
    the version nibble set to 4. *)
Definition uuid4_int (r : Z) : Z :=
  let i := Z.land r (Z.lnot (Z.shiftl 0xc000 48)) in
  let i := Z.lor i (Z.shiftl 0x8000 48) in
  let i := Z.land i (Z.lnot (Z.shiftl 0xf000 64)) in
  Z.lor i (Z.shiftl 4 76).

Definition hex_digit (d : Z) : ascii :=
  if (d <? 10)%Z then ascii_of_nat (48 + Z.to_nat d)
  else ascii_of_nat (87 + Z.to_nat d).

(** ['%0kx' % n], most significant digit first. *)
Fixpoint hex_digits (k : nat) (n : Z) : list ascii :=
  match k with
  | O => []
  | S k' => hex_digits k' (n / 16) ++ [hex_digit (n mod 16)]
  end.

Definition dash : ascii := "-"%char.

(** [str(UUID)]: the 32 hex digits grouped 8-4-4-4-12. *)
Definition uuid_group (h : list ascii) : list ascii :=
  take 8 h ++ dash :: take 4 (drop 8 h) ++ dash :: take 4 (drop 12 h)
    ++ dash :: take 4 (drop 16 h) ++ dash :: drop 20 h.

Definition uuid_chars (n : Z) : list ascii := uuid_group (hex_digits 32 n).

Definition uuid4_str (r : Z) : string :=
  string_of_list_ascii (uuid_chars (uuid4_int r)).

(** ** Process state *)

(** The lines the program prints, by their tag. *)
Inductive log_line : Type :=
| WS_CONN (job_id : string)
| WS_DCONN (job_id : string)
| WS_SEND (job_id : string)
| ERROR_send (job_id : string) (e : exn)
| Starting_inference
| Inference_successful (result : pyval)
| Output_video_moved (final_output_path : pyval)
| ERROR_inference (e : exn)
| JOB_RECEIVED (job_id : string) (job_params : pyval)
| LOCK_ACQUIRED (job_id : string)
| JOB_ERROR (job_id : string) (e : exn)
| LOCK_RELEASED (job_id : string).

(** Where a [process_job] coroutine stands.  While a task is in
    [PjRunning] its call of [run_musetalk_inference] is in flight.  The
    invoker's body has no [await] of its own (the Gradio client is called
    synchronously), so on the event loop nothing else runs during the call;
    the spec describes the backend call as a suspension for the length of
    the inference.  The embedding lets the other coroutines step while a
    call is in flight: the runs in which none does are among its runs. *)
Inductive pj_pc : Type :=
| PjCreated                                   (* scheduled by create_task *)
| PjWaiting                                   (* suspended in the lock's acquire *)
| PjRunning                                   (* lock held, backend call in flight *)
| PjSending (ws : nat) (final_result : pyval) (pending : option exn)
                                              (* suspended in send_json *)
| PjDone (escaped : option exn).              (* returned, or left by an exception *)

Record task : Type := Task {
  t_job_id : string;
  t_job_params : pyval;
  t_pc : pj_pc
}.

(** Where a [websocket_endpoint] coroutine stands. *)
Inductive ws_pc : Type :=
| WsAccepting                 (* suspended in websocket.accept() *)
| WsListening                 (* suspended in websocket.receive_text() *)
| WsClosed (escaped : option exn).

Record socket : Type := Socket {
  ws_job_id : string;
  ws_state : ws_pc
}.

(** Modelled from the spec: the serialization gate is [asyncio.Lock], whose
    code belongs to the Python standard library and not to the repository.
    Section 4.1: acquire suspends the caller until no other holder exists;
    release transfers the hold to the next waiter in FIFO arrival order, or
    marks the gate free if nobody waits.  Tasks are named by their index in
    the task table. *)
Record Lock : Type := MkLock {
  holder : option nat;
  waiters : list nat
}.

(** What an observer of the process sees happen, newest first. *)
Inductive event : Type :=
| EvReach (t : nat)                       (* task t arrives at the gate *)
| EvStart (t : nat)                       (* run_musetalk_inference is called *)
| EvFinish (t : nat) (r : exn + pyval)    (* it returned or raised *)
| EvRelease (t : nat)                     (* the lock's release *)
| EvResult (t : nat) (final_result : pyval) (* handed to manager.send_result *)
| EvSent (ws t : nat) (data : pyval)      (* send_json went out on socket ws *)
| EvResponse (t : nat) (response : pyval). (* HTTP response of the admission *)

Record State : Type := MkState {
  processing_lock : Lock;
  active_connections : gmap string nat;   (* manager.active_connections *)
  tasks : list task;                      (* tasks made by execute_workflow *)
  sockets : list socket;                  (* WebSocket objects, by identity *)
  fs : gmap string nat;                   (* files: path to content *)
  console : list log_line;                (* newest first *)
  trace : list event                      (* newest first *)
}.

Definition initial_state : State :=
  MkState (MkLock None []) ∅ [] [] ∅ [] [].

Definition set_lock (l : Lock) (s : State) : State :=
  MkState l (active_connections s) (tasks s) (sockets s) (fs s) (console s) (trace s).
Definition set_connections (m : gmap string nat) (s : State) : State :=
  MkState (processing_lock s) m (tasks s) (sockets s) (fs s) (console s) (trace s).
Definition set_tasks (ts : list task) (s : State) : State :=
  MkState (processing_lock s) (active_connections s) ts (sockets s) (fs s) (console s) (trace s).
Definition set_sockets (ws : list socket) (s : State) : State :=
  MkState (processing_lock s) (active_connections s) (tasks s) ws (fs s) (console s) (trace s).
Definition set_fs (f : gmap string nat) (s : State) : State :=
  MkState (processing_lock s) (active_connections s) (tasks s) (sockets s) f (console s) (trace s).
Definition set_console (c : list log_line) (s : State) : State :=
  MkState (processing_lock s) (active_connections s) (tasks s) (sockets s) (fs s) c (trace s).
Definition set_trace (tr : list event) (s : State) : State :=
  MkState (processing_lock s) (active_connections s) (tasks s) (sockets s) (fs s) (console s) tr.

(** ** Code between two suspension points: state and exceptions *)

Definition M (A : Type) : Type := State → (exn + A) * State.

Definition ret {A} (a : A) : M A := λ s, (inr a, s).
Definition raise {A} (e : exn) : M A := λ s, (inl e, s).
Definition bind {A B} (m : M A) (k : A → M B) : M B :=
  λ s, match m s with
       | (inr a, s') => k a s'
       | (inl e, s') => (inl e, s')
       end.

Notation "'do' x <- m ; k" := (bind m (λ x, k))
  (at level 10, x name, m at level 100, k at level 200, only parsing).
Notation "m ;; k" := (bind m (λ _, k))
  (at level 100, k at level 200, right associativity, only parsing).

(** [try: body except Exception as e: handler e]. *)
Definition try_except {A} (body : M A) (handler : exn → M A) : M A :=
  λ s, match body s with
       | (inr a, s') => (inr a, s')
       | (inl e, s') => handler e s'
       end.

(** [try: body finally: cleanup]: the cleanup runs on both exits; when it
    raises, its exception replaces the body's outcome. *)
Definition try_finally {A} (body : M A) (cleanup : M unit) : M A :=
  λ s, match body s with
       | (r, s') =>
           match cleanup s' with
           | (inr _, s'') => (r, s'')
           | (inl e, s'') => (inl e, s'')
           end
       end.

Definition lift {A} (r : exn + A) : M A := λ s, (r, s).
Definition get : M State := λ s, (inr s, s).
Definition modify (f : State → State) : M unit := λ s, (inr tt, f s).
Definition print (l : log_line) : M unit := modify (λ s, set_console (l :: console s) s).
Definition emit (e : event) : M unit := modify (λ s, set_trace (e :: trace s) s).

(** The result of [m] as a value: used where the code keeps going after
    an exception ([finally]) and for recording outcomes in the trace. *)
Definition capture {A} (m : M A) : M (exn + A) :=
  λ s, match m s with (r, s') => (inr r, s') end.

Definition reraise {A} (r : exn + A) : M unit :=
  match r with inl e => raise e | inr _ => ret tt end.

(** [try: body except cls: handler], for one exception class. *)
Definition try_except_class {A} (cls : string) (body : M A) (handler : M A) : M A :=
  λ s, match body s with
       | (inl e, s') => if String.eqb (exc_class e) cls then handler s' else (inl e, s')
       | (inr a, s') => (inr a, s')
       end.

(** ** The lock *)

(** Modelled from the spec: [acquire] of the serialization gate (section
    4.1).  A task that finds the gate free and nobody waiting takes it at
    once; any other task joins the waiters at the back and is suspended.
    The boolean tells whether the gate was taken at once. *)
Definition lock_acquire (t : nat) (l : Lock) : Lock * bool :=
  match holder l, waiters l with
  | None, [] => (MkLock (Some t) [], true)
  | _, _ => (MkLock (holder l) (waiters l ++ [t]), false)
  end.

(** Modelled from the spec: [release] of the serialization gate (section
    4.1).  The hold goes to the first waiter, which resumes when the event
    loop next runs it, or the gate is marked free when nobody waits.
    Releasing a gate that is not held is the [RuntimeError] of
    [asyncio.Lock.release]. *)
Definition lock_release (l : Lock) : exn + Lock :=
  match holder l with
  | None => inl (RuntimeError "Lock is not acquired.")
  | Some _ =>
      match waiters l with
      | [] => inr (MkLock None [])
      | next :: rest => inr (MkLock (Some next) rest)
      end
  end.

Definition release (t : nat) : M unit :=
  do s <- get;
  do l <- lift (lock_release (processing_lock s));
  modify (set_lock l) ;;
  emit (EvRelease t).

(** ** ConnectionManager *)

(** [websocket.send_json(data)] on socket [ws], for task [t]; [fault] is a
    failure of the transport. *)
Definition websocket_send_json (ws : nat) (data : pyval) (fault : option exn)
    (t : nat) : M unit :=
  do s <- get;
  match sockets s !! ws with
  | Some (Socket _ WsListening) =>
      match fault with
      | Some e => raise e
      | None => emit (EvSent ws t data)
      end
  | _ => raise (RuntimeError "WebSocket is not connected.")
  end.

Module ConnectionManager.

(** [connect], resumed when [websocket.accept()] has answered. *)
Definition connect (job_id : string) (websocket : nat) (accepted : option exn)
    : M unit :=
  reraise (from_option (@inl exn unit) (inr tt) accepted) ;;
  modify (λ s, set_connections (<[job_id := websocket]> (active_connections s)) s) ;;
  print (WS_CONN job_id).

Definition disconnect (job_id : string) : M unit :=
  do s <- get;
  match active_connections s !! job_id with
  | Some _ =>
      modify (λ s, set_connections (delete job_id (active_connections s)) s) ;;
      print (WS_DCONN job_id)
  | None => ret tt
  end.

(** [send_result] up to its [await]: the socket it is about to send on,
    or [None] when it has returned already. *)
Definition send_result_begin (job_id : string) (data : pyval) : M (option nat) :=
  do s <- get;
  match active_connections s !! job_id with
  | Some websocket => print (WS_SEND job_id) ;; ret (Some websocket)
  | None => ret None
  end.

(** [send_result] from its [await] on. *)
Definition send_result_resume (job_id : string) (websocket : nat) (data : pyval)
    (fault : option exn) (t : nat) : M unit :=
  try_except
    (websocket_send_json websocket data fault t)
    (λ e, print (ERROR_send job_id e)).

End ConnectionManager.

(** ** The backend invoker *)

Definition MUSE_TALK_ADDRESS : string := "http://127.0.0.1:7860/".

(** What the world outside answers during one backend invocation. *)
Record world : Type := World {
  w_client : option exn;                           (* Client(address) failing *)
  w_handle_file : pyval → exn + pyval;             (* handle_file(path) *)
  w_predict : list (string * pyval) → exn + pyval; (* client.predict, by keyword *)
  w_rename : option exn                            (* os.rename refused by the OS *)
}.

Definition Client (w : world) (address : string) : M unit :=
  match w_client w with Some e => raise e | None => ret tt end.

(** [os.rename(src, dst)]. *)
Definition os_rename (w : world) (src dst : pyval) : M unit :=
  match src, dst with
  | PStr a, PStr b =>
      match w_rename w with
      | Some e => raise e
      | None =>
          do s <- get;
          match fs s !! a with
          | Some content => modify (set_fs (<[b := content]> (delete a (fs s))))
          | None => raise (FileNotFoundError "No such file or directory")
          end
      end
  | PStr _, _ =>
      raise (TypeError ("rename: dst should be string, bytes or os.PathLike, not "
                          +:+ py_type_name dst))
  | _, _ =>
      raise (TypeError ("rename: src should be string, bytes or os.PathLike, not "
                          +:+ py_type_name src))
  end.

Definition run_musetalk_inference (w : world) (job_params : pyval) : M pyval :=
  print Starting_inference ;;
  try_except
    (Client w MUSE_TALK_ADDRESS ;;
     do audio <- lift (py_getitem job_params "audio_path");
     do audio_path <- lift (w_handle_file w audio);
     do video <- lift (py_getitem job_params "video_path");
     do video_file <- lift (w_handle_file w video);
     do bbox_shift <- lift (py_getitem job_params "bbox_shift");
     do extra_margin <- lift (py_getitem job_params "extra_margin");
     do parsing_mode <- lift (py_getitem job_params "parsing_mode");
     do left_cheek_width <- lift (py_getitem job_params "left_cheek_width");
     do right_cheek_width <- lift (py_getitem job_params "right_cheek_width");
     do result <- lift (w_predict w
                          [("audio_path", audio_path);
                           ("video_path", PDict [("video", video_file)]);
                           ("bbox_shift", bbox_shift);
                           ("extra_margin", extra_margin);
                           ("parsing_mode", parsing_mode);
                           ("left_cheek_width", left_cheek_width);
                           ("right_cheek_width", right_cheek_width);
                           ("api_name", PStr "/inference")]);
     print (Inference_successful result) ;;
     do output_video_info <- lift (py_getitem0 result);
     do temp_output_path <- lift (py_get output_video_info "video");
     if negb (py_truthy temp_output_path)
     then raise (ValueError "Inference did not return a video file path.")
     else
       do final_output_path <- lift (py_getitem job_params "output_file_path");
       os_rename w temp_output_path final_output_path ;;
       print (Output_video_moved final_output_path) ;;
       ret final_output_path)
    (λ e, print (ERROR_inference e) ;; raise e).

(** ** The job orchestrator *)

Definition with_pc (pc : pj_pc) (k : task) : task :=
  Task (t_job_id k) (t_job_params k) pc.

Definition set_pc (t : nat) (pc : pj_pc) : M unit :=
  modify (λ s, set_tasks (alter (with_pc pc) t (tasks s)) s).

Definition success_result (output_path filename : pyval) : pyval :=
  PDict [("format", PStr "filePath"); ("data", output_path); ("filename", filename)].

Definition error_result (e : exn) : pyval :=
  PDict [("format", PStr "error"); ("error", PStr (py_str_exn e))].

(** [process_job] once the lock is held, up to the backend call. *)
Definition process_job_locked (t : nat) (k : task) : M unit :=
  print (LOCK_ACQUIRED (t_job_id k)) ;;
  emit (EvStart t) ;;
  set_pc t PjRunning.

(** [process_job] from its start: arrive at [async with processing_lock]
    and either take the lock or join the waiters. *)
Definition process_job_enter (t : nat) (k : task) : M unit :=
  do s <- get;
  emit (EvReach t) ;;
  match lock_acquire t (processing_lock s) with
  | (l, true) => modify (set_lock l) ;; process_job_locked t k
  | (l, false) => modify (set_lock l) ;; set_pc t PjWaiting
  end.

(** The body of [async with processing_lock], from the backend call on. *)
Definition process_job_body (t : nat) (k : task) (w : world) : M pyval :=
  do r <- capture (run_musetalk_inference w (t_job_params k));
  emit (EvFinish t r) ;;
  do output_path <- lift r;
  do filename <- lift (os_path_basename output_path);
  ret (success_result output_path filename).

(** [process_job] from the backend's answer on: leave the [async with]
    (which releases the lock on both exits), handle an exception, then
    the [finally] clause up to the [await] inside [send_result]. *)
Definition process_job_resume (t : nat) (k : task) (w : world) : M unit :=
  do r <- capture
            (try_except
               (try_finally (process_job_body t k w) (release t))
               (λ e, print (JOB_ERROR (t_job_id k) e) ;; ret (error_result e)));
  let final_result := match r with inr d => d | inl _ => PDict [] end in
  print (LOCK_RELEASED (t_job_id k)) ;;
  emit (EvResult t final_result) ;;
  do suspended <- ConnectionManager.send_result_begin (t_job_id k) final_result;
  match suspended with
  | Some ws =>
      set_pc t (PjSending ws final_result
                  (match r with inl e => Some e | inr _ => None end))
  | None => reraise r ;; set_pc t (PjDone None)
  end.

(** [process_job] from the answer of [send_json] on. *)
Definition process_job_sent (t : nat) (k : task) (ws : nat) (final_result : pyval)
    (pending : option exn) (fault : option exn) : M unit :=
  ConnectionManager.send_result_resume (t_job_id k) ws final_result fault t ;;
  reraise (from_option (@inl exn unit) (inr tt) pending) ;;
  set_pc t (PjDone None).

(** A task whose coroutine is left by an exception keeps that exception. *)
Definition run_task (t : nat) (segment : M unit) (s : State) : State :=
  match segment s with
  | (inr _, s') => s'
  | (inl e, s') => snd (set_pc t (PjDone (Some e)) s')
  end.

(** ** The endpoints *)

(** [execute_workflow], with the parsed body and the bytes [os.urandom]
    gives [uuid4], read as a number. *)
Definition execute_workflow (job_params : pyval) (random : Z) : M pyval :=
  let job_id := uuid4_str random in
  print (JOB_RECEIVED job_id job_params) ;;
  modify (λ s, set_tasks (tasks s ++ [Task job_id job_params PjCreated]) s) ;;
  ret (PDict [("status", PStr "success"); ("job_id", PStr job_id)]).

Definition with_state (st : ws_pc) (k : socket) : socket :=
  Socket (ws_job_id k) st.

Definition set_ws (ws : nat) (st : ws_pc) : M unit :=
  modify (λ s, set_sockets (alter (with_state st) ws (sockets s)) s).

(** [websocket_endpoint] from the answer of [websocket.accept()] on. *)
Definition websocket_endpoint_accepted (ws : nat) (k : socket) (accepted : option exn)
    : M unit :=
  ConnectionManager.connect (ws_job_id k) ws accepted ;;
  set_ws ws WsListening.

(** [websocket.receive_text()]: a text frame, or the peer is gone. *)
Definition receive_text (frame : option string) : M string :=
  match frame with
  | Some text => ret text
  | None => raise (Exn "WebSocketDisconnect" "")
  end.

(** One turn of the receive loop of [websocket_endpoint]. *)
Definition websocket_endpoint_received (ws : nat) (k : socket) (frame : option string)
    : M unit :=
  do again <- try_except_class "WebSocketDisconnect"
                (receive_text frame ;; ret true)
                (ConnectionManager.disconnect (ws_job_id k) ;; ret false);
  if again then ret tt else set_ws ws (WsClosed None).

Definition run_handler (ws : nat) (segment : M unit) (s : State) : State :=
  match segment s with
  | (inr _, s') => s'
  | (inl e, s') => snd (set_ws ws (WsClosed (Some e)) s')
  end.

(** ** The event loop *)

Inductive label : Type :=
| LExecute (job_params : pyval) (random : Z) (* POST /execute with a JSON body *)
| LProcessJob (t : nat)                      (* the loop starts task t *)
| LGranted (t : nat)                         (* waiter t, now holder, resumes *)
| LBackend (t : nat) (w : world)             (* the backend answers task t *)
| LSent (t : nat) (fault : option exn)       (* send_json answers task t *)
| LWsOpen (job_id : string)                  (* a peer connects to /ws/job_id *)
| LWsAccepted (ws : nat) (fault : option exn)
| LWsReceive (ws : nat) (frame : option string)
| LFiles (files : gmap string nat).          (* another process writes files *)

Definition step (l : label) (s : State) : option State :=
  match l with
  | LExecute job_params random =>
      if decide (0 ≤ random < 2 ^ 128)%Z then
        match execute_workflow job_params random s with
        | (inr response, s') =>
            Some (snd (emit (EvResponse (length (tasks s)) response) s'))
        | (inl _, _) => None
        end
      else None
  | LProcessJob t =>
      match tasks s !! t with
      | Some (Task j p PjCreated) =>
          Some (run_task t (process_job_enter t (Task j p PjCreated)) s)
      | _ => None
      end
  | LGranted t =>
      match tasks s !! t with
      | Some (Task j p PjWaiting) =>
          if decide (holder (processing_lock s) = Some t)
          then Some (run_task t (process_job_locked t (Task j p PjWaiting)) s)
          else None
      | _ => None
      end
  | LBackend t w =>
      match tasks s !! t with
      | Some (Task j p PjRunning) =>
          Some (run_task t (process_job_resume t (Task j p PjRunning) w) s)
      | _ => None
      end
  | LSent t fault =>
      match tasks s !! t with
      | Some (Task j p (PjSending ws d pending)) =>
          Some (run_task t
                  (process_job_sent t (Task j p (PjSending ws d pending))
                     ws d pending fault) s)
      | _ => None
      end
  | LWsOpen job_id =>
      Some (set_sockets (sockets s ++ [Socket job_id WsAccepting]) s)
  | LWsAccepted ws fault =>
      match sockets s !! ws with
      | Some (Socket j WsAccepting) =>
          Some (run_handler ws
                  (websocket_endpoint_accepted ws (Socket j WsAccepting) fault) s)
      | _ => None
      end
  | LWsReceive ws frame =>
      match sockets s !! ws with
      | Some (Socket j WsListening) =>
          Some (run_handler ws
                  (websocket_endpoint_received ws (Socket j WsListening) frame) s)
      | _ => None
      end
  | LFiles files => Some (set_fs files s)
  end.

Fixpoint run (ls : list label) (s : State) : option State :=
  match ls with
  | [] => Some s
  | l :: ls' =>
      match step l s with
      | Some s' => run ls' s'
      | None => None
      end
  end.

Definition reachable (s : State) : Prop :=
  ∃ ls, run ls initial_state = Some s.

(** ** Reading the trace *)

Definition is_reach (t : nat) (e : event) : bool :=
  match e with EvReach t' => t =? t' | _ => false end.
Definition is_start (t : nat) (e : event) : bool :=
  match e with EvStart t' => t =? t' | _ => false end.
Definition is_finish (t : nat) (e : event) : bool :=
  match e with EvFinish t' _ => t =? t' | _ => false end.
Definition is_release (t : nat) (e : event) : bool :=
  match e with EvRelease t' => t =? t' | _ => false end.
Definition is_result (t : nat) (e : event) : bool :=
  match e with EvResult t' _ => t =? t' | _ => false end.
Definition is_sent (t : nat) (e : event) : bool :=
  match e with EvSent _ t' _ => t =? t' | _ => false end.

(** The time of an event: how many events happened before it. *)
Fixpoint when (P : event → bool) (tr : list event) : option nat :=
  match tr with
  | [] => None
  | e :: old => if P e then Some (length old) else when P old
  end.

(** How many events of a kind the trace holds. *)
Fixpoint count (P : event → bool) (tr : list event) : nat :=
  match tr with
  | [] => 0
  | e :: old => (if P e then 1 else 0) + count P old
  end.

Definition pc_of (s : State) (t : nat) : option pj_pc := t_pc <$> tasks s !! t.

Definition running (k : task) : bool :=
  match t_pc k with PjRunning => true | _ => false end.

(** The reentrancy counter of the backend invoker: the calls in flight. *)
Definition in_flight (s : State) : nat :=
  length (filter (λ k, running k = true) (tasks s)).

(** What [process_job] makes of the invoker's outcome. *)
Definition final_result_of (r : exn + pyval) : pyval :=
  match r with
  | inr output_path =>
      match os_path_basename output_path with
      | inr filename => success_result output_path filename
      | inl e => error_result e
      end
  | inl e => error_result e
  end.

(** ** Shorthands for what a segment does *)

(** Code that touches the files and the console only. *)
Definition frames {A} (m : M A) : Prop :=
  ∀ s r s', m s = (r, s') → ∃ f c, s' = set_console c (set_fs f s).

Ltac crunch :=
  cbv [bind ret raise lift get modify print emit capture reraise try_except
       try_finally try_except_class set_pc set_ws release run_task run_handler
       set_lock set_connections set_tasks set_sockets set_fs set_console
       set_trace from_option];
  simpl.

(** Chooses, for an event just added to a trace, the kind it is of. *)
Ltac pick_kind :=
  first [ by left
        | by (right; left)
        | by (right; right; left; eexists)
        | by (right; right; right; left; eexists _, _)
        | by (do 4 right) ].

Definition gate_free (l : Lock) : bool :=
  match holder l, waiters l with
  | None, [] => true
  | _, _ => false
  end.

(** The lock after its holder released it. *)
Definition released (l : Lock) : Lock :=
  match waiters l with
  | [] => MkLock None []
  | next :: rest => MkLock (Some next) rest
  end.

(** Where [process_job] stands after the [finally] clause has called
    [send_result]. *)
Definition after_result (s : State) (job_id : string) (final_result : pyval) : pj_pc :=
  match active_connections s !! job_id with
  | Some ws => PjSending ws final_result None
  | None => PjDone None
  end.

Definition send_ok (s : State) (ws : nat) (fault : option exn) : bool :=
  match sockets s !! ws, fault with
  | Some (Socket _ WsListening), None => true
  | _, _ => false
  end.

(** ** The gate invariant *)

(** How far a job has come, as far as the gate is concerned. *)
Inductive phase : Type := PhNew | PhWaiting | PhRunning | PhFinished.

Definition phase_of (pc : option pj_pc) : phase :=
  match pc with
  | None | Some PjCreated => PhNew
  | Some PjWaiting => PhWaiting
  | Some PjRunning => PhRunning
  | Some (PjSending _ _ _) | Some (PjDone _) => PhFinished
  end.

Definition queue (l : Lock) : list nat := option_list (holder l) ++ waiters l.

Definition upd (ph : nat → phase) (t : nat) (x : phase) : nat → phase :=
  λ t', if decide (t' = t) then x else ph t'.

(** Events that tell nothing about arrival, start or finish. *)
Definition quiet (e : event) : bool :=
  match e with
  | EvReach _ | EvStart _ | EvFinish _ _ => false
  | _ => true
  end.

Record GateInv (l : Lock) (ph : nat → phase) (tr : list event) : Prop := {
  gi_reach : ∀ t, when (is_reach t) tr = None ↔ ph t = PhNew;
  gi_start : ∀ t, is_Some (when (is_start t) tr) ↔ (ph t = PhRunning ∨ ph t = PhFinished);
  gi_finish : ∀ t, is_Some (when (is_finish t) tr) ↔ ph t = PhFinished;
  gi_queue : ∀ t, t ∈ queue l ↔ (ph t = PhWaiting ∨ ph t = PhRunning);
  gi_holder : ∀ t, ph t = PhRunning → holder l = Some t;
  gi_waiters : ∀ t, t ∈ waiters l → ph t = PhWaiting;
  gi_free : holder l = None → waiters l = [];
  gi_sorted : ∀ i j a b, i < j → queue l !! i = Some a → queue l !! j = Some b →
              ∃ ra rb, when (is_reach a) tr = Some ra ∧
                       when (is_reach b) tr = Some rb ∧ ra < rb;
  gi_reach_start : ∀ t r st, when (is_reach t) tr = Some r →
                   when (is_start t) tr = Some st → r < st;
  gi_start_finish : ∀ t st f, when (is_start t) tr = Some st →
                    when (is_finish t) tr = Some f → st < f;
  gi_fifo : ∀ a b ra rb sb,
            when (is_reach a) tr = Some ra → when (is_reach b) tr = Some rb →
            ra < rb → when (is_start b) tr = Some sb →
            ∃ sa fa, when (is_start a) tr = Some sa ∧
                     when (is_finish a) tr = Some fa ∧ sa < fa ∧ fa < sb;
  gi_excl : ∀ a b sa sb,
            when (is_start a) tr = Some sa → when (is_start b) tr = Some sb →
            sa < sb →
            ∃ fa, when (is_finish a) tr = Some fa ∧ fa < sb
}.

(** ** Every step, by what it does *)

Definition Inv (s : State) : Prop :=
  GateInv (processing_lock s) (λ t, phase_of (pc_of s t)) (trace s).

Definition is_ws_label (l : label) : bool :=
  match l with LWsAccepted _ _ | LWsReceive _ _ => true | _ => false end.

Inductive effect (s : State) : label → State → Prop :=
| eff_execute p r :
    (0 ≤ r < 2 ^ 128)%Z →
    effect s (LExecute p r)
      (MkState (processing_lock s) (active_connections s)
         (tasks s ++ [Task (uuid4_str r) p PjCreated]) (sockets s) (fs s)
         (JOB_RECEIVED (uuid4_str r) p :: console s)
         (EvResponse (length (tasks s))
            (PDict [("status", PStr "success"); ("job_id", PStr (uuid4_str r))])
            :: trace s))
| eff_enter_free t j p :
    tasks s !! t = Some (Task j p PjCreated) →
    gate_free (processing_lock s) = true →
    effect s (LProcessJob t)
      (MkState (MkLock (Some t) []) (active_connections s)
         (alter (with_pc PjRunning) t (tasks s)) (sockets s) (fs s)
         (LOCK_ACQUIRED j :: console s) (EvStart t :: EvReach t :: trace s))
| eff_enter_wait t j p :
    tasks s !! t = Some (Task j p PjCreated) →
    gate_free (processing_lock s) = false →
    effect s (LProcessJob t)
      (MkState (MkLock (holder (processing_lock s))
                  (waiters (processing_lock s) ++ [t]))
         (active_connections s)
         (alter (with_pc PjWaiting) t (tasks s)) (sockets s) (fs s)
         (console s) (EvReach t :: trace s))
| eff_granted t j p :
    tasks s !! t = Some (Task j p PjWaiting) →
    holder (processing_lock s) = Some t →
    effect s (LGranted t)
      (MkState (processing_lock s) (active_connections s)
         (alter (with_pc PjRunning) t (tasks s)) (sockets s) (fs s)
         (LOCK_ACQUIRED j :: console s) (EvStart t :: trace s))
| eff_backend t j p w c :
    tasks s !! t = Some (Task j p PjRunning) →
    holder (processing_lock s) = Some t →
    effect s (LBackend t w)
      (MkState (released (processing_lock s)) (active_connections s)
         (alter (with_pc (after_result s j
                            (final_result_of (fst (run_musetalk_inference w p s)))))
            t (tasks s))
         (sockets s) (fs (snd (run_musetalk_inference w p s))) c
         (EvResult t (final_result_of (fst (run_musetalk_inference w p s)))
            :: EvRelease t
            :: EvFinish t (fst (run_musetalk_inference w p s)) :: trace s))
| eff_sent t j p ws d pending fault c :
    tasks s !! t = Some (Task j p (PjSending ws d pending)) →
    effect s (LSent t fault)
      (MkState (processing_lock s) (active_connections s)
         (alter (with_pc (PjDone pending)) t (tasks s)) (sockets s) (fs s) c
         (if send_ok s ws fault then EvSent ws t d :: trace s else trace s))
| eff_ws_open j :
    effect s (LWsOpen j)
      (MkState (processing_lock s) (active_connections s) (tasks s)
         (sockets s ++ [Socket j WsAccepting]) (fs s) (console s) (trace s))
| eff_ws l ac sk c :
    is_ws_label l = true →
    effect s l (MkState (processing_lock s) ac (tasks s) sk (fs s) c (trace s))
| eff_files f :
    effect s (LFiles f)
      (MkState (processing_lock s) (active_connections s) (tasks s) (sockets s)
         f (console s) (trace s)).

(** ** The ledger of results *)

(** How far a job has come, as far as its result is concerned. *)
Inductive lphase : Type :=
| LpIdle
| LpSending (ws : nat) (final_result : pyval) (pending : option exn)
| LpDone (escaped : option exn).

Definition lphase_of (pc : option pj_pc) : lphase :=
  match pc with
  | Some (PjSending ws d pending) => LpSending ws d pending
  | Some (PjDone escaped) => LpDone escaped
  | _ => LpIdle
  end.

Definition idle (p : lphase) : bool :=
  match p with LpIdle => true | _ => false end.

Definition updl (lp : nat → lphase) (t : nat) (x : lphase) : nat → lphase :=
  λ t', if decide (t' = t) then x else lp t'.

(** Events that tell nothing about results. *)
Definition hushed (e : event) : bool :=
  match e with
  | EvReach _ | EvStart _ | EvResponse _ _ => true
  | _ => false
  end.

Record Ledger (lp : nat → lphase) (parf : nat → option pyval) (tr : list event)
    : Prop := {
  lg_release : ∀ t d, when (is_result t) tr = Some d →
               ∃ r, when (is_release t) tr = Some r ∧ r < d;
  lg_noescape : ∀ t, match lp t with
                     | LpSending _ _ (Some _) | LpDone (Some _) => False
                     | _ => True
                     end;
  lg_results : ∀ t, count (is_result t) tr = if idle (lp t) then 0 else 1;
  lg_finishes : ∀ t, count (is_finish t) tr = if idle (lp t) then 0 else 1;
  lg_sent : ∀ t, match lp t with
                 | LpDone _ => count (is_sent t) tr ≤ 1
                 | _ => count (is_sent t) tr = 0
                 end;
  lg_sending : ∀ t ws d pending, lp t = LpSending ws d pending → EvResult t d ∈ tr;
  lg_sent_result : ∀ ws t d, EvSent ws t d ∈ tr → EvResult t d ∈ tr;
  lg_result_finish : ∀ t d, EvResult t d ∈ tr →
                     ∃ r, EvFinish t r ∈ tr ∧ d = final_result_of r;
  lg_finish_outcome : ∀ t r, EvFinish t r ∈ tr →
                      ∃ p w s0, parf t = Some p ∧
                                r = fst (run_musetalk_inference w p s0)
}.

Definition Led (s : State) : Prop :=
  Ledger (λ t, lphase_of (pc_of s t)) (λ t, t_job_params <$> tasks s !! t) (trace s).

(** The payload that goes with an outcome of the invoker. *)
Definition payload_matches (r : exn + pyval) (d : pyval) : Prop :=
  match r with
  | inr out =>
      ∃ dst, out = PStr dst ∧
             d = PDict [("format", PStr "filePath"); ("data", PStr dst);
                        ("filename", PStr (basename dst))]
  | inl e => d = PDict [("format", PStr "error"); ("error", PStr (py_str_exn e))]
  end.

(** ** Job ids *)

Definition hex_value (c : ascii) : Z :=
  let n := Z.of_nat (nat_of_ascii c) in
  if (n <? 58)%Z then (n - 48)%Z else (n - 87)%Z.

(** The grouped text without its dashes. *)
Definition uuid_ungroup (u : list ascii) : list ascii :=
  take 8 u ++ take 4 (drop 9 u) ++ take 4 (drop 14 u) ++ take 4 (drop 19 u)
    ++ drop 24 u.

(** The random numbers the admissions of a run draw, in order. *)
Definition draws (ls : list label) : list Z :=
  omap (λ l, match l with LExecute _ r => Some r | _ => None end) ls.

(** ** Sample runs *)

(** A backend that answers with a file at [temp], and a request body. *)
Definition demo_world (temp : string) : world :=
  World None (λ v, inr v) (λ _, inr (PList [PDict [("video", PStr temp)]; PNone])) None.

Definition failing_world (msg : string) : world :=
  World None (λ v, inr v) (λ _, inl (ValueError msg)) None.

Definition demo_params (out : string) : pyval :=
  PDict [("audio_path", PStr "/in/a.wav"); ("video_path", PStr "/in/v.mp4");
         ("bbox_shift", PInt 0); ("extra_margin", PInt 10);
         ("parsing_mode", PStr "jaw"); ("left_cheek_width", PInt 90);
         ("right_cheek_width", PInt 90); ("output_file_path", PStr out)].

Definition demo_run : list label :=
  [LExecute (demo_params "/out/final.mp4") 7;
   LWsOpen (uuid4_str 7);
   LWsAccepted 0 None;
   LProcessJob 0;
   LExecute (demo_params "/out/second.mp4") 8;
   LProcessJob 1;
   LFiles {[ "/tmp/gradio/x.mp4" := 1 ]};
   LBackend 0 (demo_world "/tmp/gradio/x.mp4");
   LGranted 1;
   LSent 0 None;
   LBackend 1 (failing_world "boom")].

Definition state_after (ls : list label) : State :=
  default initial_state (run ls initial_state).

(** Two jobs admitted, the first in its backend call, the second waiting. *)
Definition two_jobs_run : list label :=
  [LExecute (demo_params "/out/final.mp4") 7;
   LExecute (demo_params "/out/second.mp4") 8;
   LProcessJob 0;
   LProcessJob 1].

(** Three jobs arrive in the order 1, 0, 2 while job 1 holds the lock;
    job 1 fails, job 0 is served next. *)
Definition queue_run : list label :=
  [LExecute (demo_params "/out/a.mp4") 1;
   LExecute (demo_params "/out/b.mp4") 2;
   LExecute (demo_params "/out/c.mp4") 3;
   LProcessJob 1;
   LProcessJob 0;
   LProcessJob 2;
   LBackend 1 (failing_world "boom");
   LGranted 0].

(** One job, in its backend call. *)
Definition one_job_run : list label :=
  [LExecute (demo_params "/out/final.mp4") 7;
   LWsOpen (uuid4_str 7);
   LWsAccepted 0 None;
   LProcessJob 0;
   LFiles {[ "/tmp/gradio/x.mp4" := 1 ]}].

(** Two peers connect for the same job id; the first then goes away. *)
Definition two_listeners_run : list label :=
  [LWsOpen "job"; LWsAccepted 0 None; LWsOpen "job"; LWsAccepted 1 None; LWsOpen "job"].

(** ** The fields the invoker reads *)

(** The keys [run_musetalk_inference] reads from the request body before
    it calls the backend, in the order it reads them. *)
Definition required_fields : list string :=
  ["audio_path"; "video_path"; "bbox_shift"; "extra_margin"; "parsing_mode";
   "left_cheek_width"; "right_cheek_width"].

(** The first of the keys [ks] that the dictionary [d] lacks. *)
Fixpoint first_missing_in (ks : list string) (d : list (string * pyval))
    : option string :=
  match ks with
  | [] => None
  | k :: ks' =>
      match assoc_get k d with
      | None => Some k
      | Some _ => first_missing_in ks' d
      end
  end.

Definition is_dict (v : pyval) : bool :=
  match v with PDict _ => true | _ => false end.

(** A backend whose reply holds no video, and a body without the output
    path. *)
Definition empty_reply_world : world :=
  World None (λ v, inr v) (λ _, inr (PList [PDict [("video", PNone)]])) None.

Definition no_output_params : pyval :=
  PDict [("audio_path", PStr "/in/a.wav"); ("video_path", PStr "/in/v.mp4");
         ("bbox_shift", PInt 0); ("extra_margin", PInt 10);
         ("parsing_mode", PStr "jaw"); ("left_cheek_width", PInt 90);
         ("right_cheek_width", PInt 90)].

(** One job whose result is being sent to its listener. *)
Definition sending_run : list label :=
  one_job_run ++ [LBackend 0 (demo_world "/tmp/gradio/x.mp4")].

(** One job that finished while nobody listened. *)
Definition unheard_run : list label :=
  [LExecute (demo_params "/out/final.mp4") 7;
   LProcessJob 0;
   LBackend 0 (failing_world "boom")].

(** How often a job has arrived at the lock, called the backend and
    released the lock, by where its task stands. *)
Definition times_reached (pc : option pj_pc) : nat :=
  match phase_of pc with PhNew => 0 | _ => 1 end.
Definition times_started (pc : option pj_pc) : nat :=
  match phase_of pc with PhRunning | PhFinished => 1 | _ => 0 end.
Definition times_released (pc : option pj_pc) : nat :=
  match phase_of pc with PhFinished => 1 | _ => 0 end.

(** Results go where they belong: the registry maps a job id to a socket
    opened under that id, a pending send is on such a socket, and so was
    every send that went out. *)
Record Routed (s : State) : Prop := {
  rt_registry : ∀ h ws, active_connections s !! h = Some ws →
                ∃ st, sockets s !! ws = Some (Socket h st);
  rt_pending : ∀ t j p ws d x, tasks s !! t = Some (Task j p (PjSending ws d x)) →
               ∃ st, sockets s !! ws = Some (Socket j st);
  rt_sent : ∀ ws t d, EvSent ws t d ∈ trace s →
            ∃ k st, tasks s !! t = Some k ∧
                    sockets s !! ws = Some (Socket (t_job_id k) st)
}.

(** * Properties *)

(** ** Sample values *)

Example basename_final : basename "/out/final.mp4" = "final.mp4".
Proof. reflexivity. Qed.

Example uuid4_str_zero : uuid4_str 0 = "00000000-0000-4000-8000-000000000000".
Proof. vm_compute. reflexivity. Qed.

Lemma string_app_cons c a b : String c a +:+ b = String c (a +:+ b).
Proof. reflexivity. Qed.

Lemma string_app_nil_r a : a +:+ "" = a.
Proof. induction a as [|c a IH]; [done|]. by rewrite string_app_cons, IH. Qed.

Lemma string_app_assoc a b c : (a +:+ b) +:+ c = a +:+ (b +:+ c).
Proof. induction a as [|x a IH]; [done|]. by rewrite !string_app_cons, IH. Qed.

Lemma has_slash_app a b : has_slash (a +:+ b) = has_slash a || has_slash b.
Proof.
  induction a as [|x a IH]; [done|].
  rewrite string_app_cons. simpl. by rewrite IH, orb_assoc.
Qed.

Lemma after_last_slash_spec p seen dir :
  has_slash seen = false →
  (dir = "" ∨ ∃ d, dir = d +:+ "/") →
  has_slash (after_last_slash p (seen +:+ p)) = false
  ∧ ∃ dir', dir +:+ seen +:+ p = dir' +:+ after_last_slash p (seen +:+ p)
            ∧ (dir' = "" ∨ ∃ d, dir' = d +:+ "/").
Proof.
  revert seen dir. induction p as [|c r IH]; intros seen dir Hs Hd.
  - simpl. rewrite string_app_nil_r. eauto.
  - simpl. destruct (Ascii.eqb c "/") eqn:Ec.
    + apply Ascii.eqb_eq in Ec as ->.
      destruct (IH "" (dir +:+ seen +:+ "/")) as (H1 & dir' & H2 & H3);
        [done|right; exists (dir +:+ seen); by rewrite string_app_assoc|].
      change ("" +:+ r) with r in H1, H2.
      split; [done|]. exists dir'. split; [|done]. rewrite <- H2.
      rewrite !string_app_assoc. reflexivity.
    + destruct (IH (seen +:+ String c "") dir) as (H1 & dir' & H2 & H3); [|done|].
      { rewrite has_slash_app. simpl. by rewrite Hs, Ec. }
      rewrite string_app_assoc in H1, H2. eauto.
Qed.

(** [basename p] is what is left of [p] after its last slash: it has no
    slash, and what comes before it in [p] is empty or ends with a slash. *)
Lemma basename_spec p :
  has_slash (basename p) = false
  ∧ ∃ dir, p = dir +:+ basename p ∧ (dir = "" ∨ ∃ d, dir = d +:+ "/").
Proof.
  destruct (after_last_slash_spec p "" "") as (H1 & dir & H2 & H3); [done|by left|].
  split; [done|]. by exists dir.
Qed.

(** ** What one segment does to the state *)

Lemma set_console_fs_id s : s = set_console (console s) (set_fs (fs s) s).
Proof. by destruct s. Qed.

Lemma frames_ret {A} (a : A) : frames (ret a).
Proof. intros s r s' [= <- <-]. eexists _, _. apply set_console_fs_id. Qed.

Lemma frames_raise {A} e : frames (@raise A e).
Proof. intros s r s' [= <- <-]. eexists _, _. apply set_console_fs_id. Qed.

Lemma frames_lift {A} (x : exn + A) : frames (lift x).
Proof. intros s r s' [= <- <-]. eexists _, _. apply set_console_fs_id. Qed.

Lemma frames_print l : frames (print l).
Proof.
  intros s r s' [= <- <-]. eexists _, _.
  unfold set_console, set_fs. simpl. reflexivity.
Qed.

Lemma frames_bind {A B} (m : M A) (k : A → M B) :
  frames m → (∀ a, frames (k a)) → frames (bind m k).
Proof.
  intros Hm Hk s r s'. unfold bind.
  destruct (m s) as [[e|a] s1] eqn:E; intros H.
  - simplify_eq. eauto.
  - destruct (Hm _ _ _ E) as (f1 & c1 & ->).
    destruct (Hk _ _ _ _ H) as (f2 & c2 & ->).
    eexists f2, c2. by destruct s.
Qed.

Lemma frames_try_except {A} (m : M A) (h : exn → M A) :
  frames m → (∀ e, frames (h e)) → frames (try_except m h).
Proof.
  intros Hm Hh s r s'. unfold try_except.
  destruct (m s) as [[e|a] s1] eqn:E; intros H.
  - destruct (Hm _ _ _ E) as (f1 & c1 & ->).
    destruct (Hh _ _ _ _ H) as (f2 & c2 & ->).
    eexists f2, c2. by destruct s.
  - simplify_eq. eauto.
Qed.

Lemma frames_os_rename w src dst : frames (os_rename w src dst).
Proof.
  unfold os_rename.
  destruct src; try apply frames_raise.
  destruct dst; try apply frames_raise.
  destruct (w_rename w); [apply frames_raise|].
  intros st r st'. unfold bind, get, modify, raise. simpl.
  destruct (fs st !! _); intros H; simplify_eq.
  - eexists _, _. unfold set_console, set_fs. simpl. reflexivity.
  - eexists _, _. apply set_console_fs_id.
Qed.

(** The invoker touches the files and the console only. *)
Lemma run_musetalk_inference_frame w p : frames (run_musetalk_inference w p).
Proof.
  unfold run_musetalk_inference, Client.
  repeat first
    [ apply frames_bind; [|intros ?]
    | apply frames_try_except; [|intros ?]
    | apply frames_print | apply frames_lift | apply frames_ret
    | apply frames_raise | apply frames_os_rename
    | case_match ].
Qed.

Lemma process_job_enter_effect t k s :
  run_task t (process_job_enter t k) s =
    if gate_free (processing_lock s)
    then MkState (MkLock (Some t) []) (active_connections s)
           (alter (with_pc PjRunning) t (tasks s)) (sockets s) (fs s)
           (LOCK_ACQUIRED (t_job_id k) :: console s)
           (EvStart t :: EvReach t :: trace s)
    else MkState (MkLock (holder (processing_lock s))
                    (waiters (processing_lock s) ++ [t]))
           (active_connections s)
           (alter (with_pc PjWaiting) t (tasks s)) (sockets s) (fs s)
           (console s) (EvReach t :: trace s).
Proof.
  unfold process_job_enter, process_job_locked, lock_acquire, gate_free.
  destruct s as [[h ws] ac ts sk f c tr]. crunch.
  destruct h, ws; reflexivity.
Qed.

Lemma process_job_locked_effect t k s :
  run_task t (process_job_locked t k) s =
    MkState (processing_lock s) (active_connections s)
      (alter (with_pc PjRunning) t (tasks s)) (sockets s) (fs s)
      (LOCK_ACQUIRED (t_job_id k) :: console s) (EvStart t :: trace s).
Proof. unfold process_job_locked. crunch. reflexivity. Qed.

Lemma process_job_resume_effect t k w s h :
  holder (processing_lock s) = Some h →
  ∃ f c,
    let r := fst (run_musetalk_inference w (t_job_params k) s) in
    f = fs (snd (run_musetalk_inference w (t_job_params k) s)) ∧
    run_task t (process_job_resume t k w) s =
      MkState (released (processing_lock s)) (active_connections s)
        (alter (with_pc (after_result s (t_job_id k) (final_result_of r))) t (tasks s))
        (sockets s) f c
        (EvResult t (final_result_of r) :: EvRelease t :: EvFinish t r :: trace s).
Proof.
  intros Hh.
  destruct (run_musetalk_inference w (t_job_params k) s) as [r s1] eqn:E.
  destruct (run_musetalk_inference_frame _ _ _ _ _ E) as (f & c & ->).
  unfold process_job_resume, process_job_body, ConnectionManager.send_result_begin,
    after_result, released, final_result_of, lock_release.
  destruct s as [[ho wa] ac ts sk f0 c0 tr]. simpl in *. subst ho.
  crunch. rewrite E. crunch.
  destruct r as [e|out]; crunch.
  - destruct wa; crunch; destruct (ac !! t_job_id k); crunch; eauto.
  - destruct (os_path_basename out); crunch;
      destruct wa; crunch; destruct (ac !! t_job_id k); crunch; eauto.
Qed.

Lemma process_job_sent_effect t k ws d pending fault s :
  ∃ c,
    run_task t (process_job_sent t k ws d pending fault) s =
      MkState (processing_lock s) (active_connections s)
        (alter (with_pc (PjDone pending)) t (tasks s)) (sockets s) (fs s) c
        (if send_ok s ws fault then EvSent ws t d :: trace s else trace s).
Proof.
  unfold process_job_sent, ConnectionManager.send_result_resume,
    websocket_send_json, send_ok.
  destruct s as [lk ac ts sk f c tr]. crunch.
  destruct (sk !! ws) as [[j []]|]; crunch;
    destruct fault, pending; crunch; eauto.
Qed.

Lemma websocket_endpoint_accepted_effect ws k accepted s :
  ∃ ac sk c,
    run_handler ws (websocket_endpoint_accepted ws k accepted) s =
      MkState (processing_lock s) ac (tasks s) sk (fs s) c (trace s).
Proof.
  unfold websocket_endpoint_accepted, ConnectionManager.connect.
  destruct s as [lk ac ts sk f c tr]. crunch.
  destruct accepted; crunch; eauto.
Qed.

Lemma websocket_endpoint_received_effect ws k frame s :
  ∃ ac sk c,
    run_handler ws (websocket_endpoint_received ws k frame) s =
      MkState (processing_lock s) ac (tasks s) sk (fs s) c (trace s).
Proof.
  unfold websocket_endpoint_received, ConnectionManager.disconnect, receive_text.
  destruct s as [lk ac ts sk f c tr]. crunch.
  destruct frame; crunch; eauto.
  destruct (ac !! ws_job_id k); crunch; eauto.
Qed.

(** ** The gate invariant *)

Lemma when_lt P tr n : when P tr = Some n → n < length tr.
Proof.
  revert n. induction tr as [|e tr IH]; simpl; intros n H; [done|].
  destruct (P e); simplify_eq; [lia|]. specialize (IH _ H). lia.
Qed.

Lemma when_quiet P e tr : P e = false → when P (e :: tr) = when P tr.
Proof. simpl. by intros ->. Qed.

Lemma GateInv_initial : GateInv (MkLock None []) (λ _, PhNew) [].
Proof.
  split; simpl; try done.
  - intros t. split; [by intros [? ?]|by intros [|]].
  - intros t. unfold queue. simpl. split; [by intros ?%elem_of_nil|by intros [|]].
  - intros t ?%elem_of_nil. done.
Qed.

Lemma GateInv_ext l ph ph' tr :
  (∀ t, ph t = ph' t) → GateInv l ph tr → GateInv l ph' tr.
Proof.
  intros E [].
  split; intros; rewrite <- ?E in *; eauto.
Qed.

Lemma GateInv_quiet l ph tr e :
  quiet e = true → GateInv l ph tr → GateInv l ph (e :: tr).
Proof.
  intros Hq [].
  assert (Hr : ∀ t, when (is_reach t) (e :: tr) = when (is_reach t) tr)
    by (intros; apply when_quiet; by destruct e).
  assert (Hs : ∀ t, when (is_start t) (e :: tr) = when (is_start t) tr)
    by (intros; apply when_quiet; by destruct e).
  assert (Hf : ∀ t, when (is_finish t) (e :: tr) = when (is_finish t) tr)
    by (intros; apply when_quiet; by destruct e).
  split; intros; rewrite ?Hr, ?Hs, ?Hf in *; eauto.
Qed.

Lemma when_reach a t tr :
  when (is_reach a) (EvReach t :: tr) =
    if decide (a = t) then Some (length tr) else when (is_reach a) tr.
Proof. simpl. case_decide; subst; [by rewrite Nat.eqb_refl|]. by rewrite (proj2 (Nat.eqb_neq _ _)). Qed.

Lemma when_start a t tr :
  when (is_start a) (EvStart t :: tr) =
    if decide (a = t) then Some (length tr) else when (is_start a) tr.
Proof. simpl. case_decide; subst; [by rewrite Nat.eqb_refl|]. by rewrite (proj2 (Nat.eqb_neq _ _)). Qed.

Lemma when_finish a t r tr :
  when (is_finish a) (EvFinish t r :: tr) =
    if decide (a = t) then Some (length tr) else when (is_finish a) tr.
Proof. simpl. case_decide; subst; [by rewrite Nat.eqb_refl|]. by rewrite (proj2 (Nat.eqb_neq _ _)). Qed.

Lemma queue_acquire t l :
  (holder l = None → waiters l = []) →
  queue (fst (lock_acquire t l)) = queue l ++ [t].
Proof.
  unfold lock_acquire, queue. destruct l as [[h|] ws]; simpl; [done|].
  intros ->; done.
Qed.

Lemma GateInv_reached l ph tr t :
  GateInv l ph tr → ph t ≠ PhNew → ∃ r, when (is_reach t) tr = Some r ∧ r < length tr.
Proof.
  intros I Hne. destruct (when (is_reach t) tr) as [r|] eqn:E.
  - exists r. split; [done|]. by apply when_lt in E.
  - by apply (gi_reach _ _ _ I) in E.
Qed.

Lemma GateInv_in_queue l ph tr t :
  GateInv l ph tr → t ∈ queue l → ph t ≠ PhNew.
Proof. intros I Hq. apply (gi_queue _ _ _ I) in Hq as [E|E]; by rewrite E. Qed.

(** A task arrives at the gate. *)
Lemma GateInv_reach l ph tr t :
  ph t = PhNew →
  GateInv l ph tr →
  GateInv (fst (lock_acquire t l)) (upd ph t PhWaiting) (EvReach t :: tr).
Proof.
  intros Ht I.
  assert (Hq : queue (fst (lock_acquire t l)) = queue l ++ [t])
    by (apply queue_acquire, (gi_free _ _ _ I)).
  assert (Hs : ∀ a, when (is_start a) (EvReach t :: tr) = when (is_start a) tr) by done.
  assert (Hf : ∀ a, when (is_finish a) (EvReach t :: tr) = when (is_finish a) tr) by done.
  assert (Hnost : when (is_start t) tr = None).
  { destruct (when (is_start t) tr) eqn:E; [|done].
    assert (is_Some (when (is_start t) tr)) as HS by (rewrite E; eauto).
    apply (gi_start _ _ _ I) in HS as [?|?]; congruence. }
  split.
  - intros a. rewrite when_reach. unfold upd. case_decide; [done|]. apply (gi_reach _ _ _ I).
  - intros a. rewrite Hs. unfold upd. case_decide; [subst|apply (gi_start _ _ _ I)].
    rewrite Hnost. split; [by intros [? ?]|by intros [|]].
  - intros a. rewrite Hf. unfold upd. case_decide; [subst|apply (gi_finish _ _ _ I)].
    split; [|done]. intros HS. apply (gi_finish _ _ _ I) in HS. congruence.
  - intros a. rewrite Hq, elem_of_app, list_elem_of_singleton. unfold upd.
    case_decide; [subst; tauto|].
    rewrite (gi_queue _ _ _ I). tauto.
  - intros a. unfold upd. case_decide; [done|]. intros Ha.
    pose proof (gi_holder _ _ _ I a Ha) as Hh.
    unfold lock_acquire. rewrite Hh. done.
  - intros a. unfold upd. case_decide; [done|].
    unfold lock_acquire. destruct (holder l) eqn:Hh; simpl.
    + rewrite elem_of_app, list_elem_of_singleton. intros [?|?]; [|done].
      by apply (gi_waiters _ _ _ I).
    + rewrite (gi_free _ _ _ I Hh). simpl. by intros ?%elem_of_nil.
  - unfold lock_acquire. destruct (holder l) eqn:Hh; simpl; [done|].
    rewrite (gi_free _ _ _ I Hh). done.
  - intros i j a b Hij. rewrite Hq. intros Ha Hb.
    assert (i < length (queue l)).
    { apply lookup_lt_Some in Hb. rewrite length_app in Hb. simpl in Hb. lia. }
    rewrite lookup_app_l in Ha by done.
    assert (a ≠ t).
    { intros ->. apply list_elem_of_lookup_2 in Ha.
      by apply (GateInv_in_queue _ _ _ _ I) in Ha. }
    rewrite !when_reach. rewrite decide_False by done.
    destruct (decide (j < length (queue l))) as [Hj|Hj].
    + rewrite lookup_app_l in Hb by done.
      assert (b ≠ t).
      { intros ->. apply list_elem_of_lookup_2 in Hb.
        by apply (GateInv_in_queue _ _ _ _ I) in Hb. }
      rewrite decide_False by done. by apply (gi_sorted _ _ _ I i j).
    + rewrite lookup_app_r in Hb by lia.
      apply list_lookup_singleton_Some in Hb as [_ <-].
      rewrite decide_True by done.
      apply list_elem_of_lookup_2 in Ha.
      apply (GateInv_in_queue _ _ _ _ I) in Ha.
      destruct (GateInv_reached _ _ _ _ I Ha) as (ra & Hra & Hlt). eauto.
  - intros a r st. rewrite when_reach, Hs. case_decide; [subst; congruence|].
    apply (gi_reach_start _ _ _ I).
  - intros a st f. rewrite Hs, Hf. apply (gi_start_finish _ _ _ I).
  - intros a b ra rb sb. rewrite !when_reach, !Hs, Hf.
    intros Ha Hb Hlt Hsb.
    destruct (decide (b = t)) as [->|]; [congruence|].
    destruct (decide (a = t)) as [->|].
    + simplify_eq. apply when_lt in Hb. lia.
    + by apply (gi_fifo _ _ _ I a b ra rb sb).
  - intros a b sa sb. rewrite !Hs, Hf. apply (gi_excl _ _ _ I).
Qed.

(** The holder of the gate, so far suspended, calls the backend. *)
Lemma GateInv_granted l ph tr t :
  ph t = PhWaiting →
  holder l = Some t →
  GateInv l ph tr →
  GateInv l (upd ph t PhRunning) (EvStart t :: tr).
Proof.
  intros Ht Hh I.
  assert (Hr : ∀ a, when (is_reach a) (EvStart t :: tr) = when (is_reach a) tr) by done.
  assert (Hf : ∀ a, when (is_finish a) (EvStart t :: tr) = when (is_finish a) tr) by done.
  assert (Hnost : when (is_start t) tr = None).
  { destruct (when (is_start t) tr) eqn:E; [|done].
    assert (is_Some (when (is_start t) tr)) as HS by (rewrite E; eauto).
    apply (gi_start _ _ _ I) in HS as [?|?]; congruence. }
  assert (Hq0 : queue l !! 0 = Some t) by (unfold queue; by rewrite Hh).
  assert (Hdone : ∀ a, a ≠ t → ph a = PhFinished →
            ∃ sa fa, when (is_start a) tr = Some sa ∧
                     when (is_finish a) tr = Some fa ∧ sa < fa ∧ fa < length tr).
  { intros a Hne Ha.
    destruct (proj2 (gi_start _ _ _ I a)) as [sa Hsa]; [by right|].
    destruct (proj2 (gi_finish _ _ _ I a) Ha) as [fa Hfa].
    exists sa, fa. repeat split; [done|done|by eapply (gi_start_finish _ _ _ I)|].
    by apply when_lt in Hfa. }
  split.
  - intros a. rewrite Hr. unfold upd. case_decide; [subst|apply (gi_reach _ _ _ I)].
    rewrite (gi_reach _ _ _ I). split; congruence.
  - intros a. rewrite when_start. unfold upd. case_decide; [|apply (gi_start _ _ _ I)].
    split; eauto.
  - intros a. rewrite Hf. unfold upd. case_decide; [subst|apply (gi_finish _ _ _ I)].
    rewrite (gi_finish _ _ _ I). split; congruence.
  - intros a. unfold upd. case_decide; [subst|apply (gi_queue _ _ _ I)].
    rewrite (gi_queue _ _ _ I). tauto.
  - intros a. unfold upd. case_decide; [by subst|]. apply (gi_holder _ _ _ I).
  - intros a Ha. unfold upd. pose proof (gi_waiters _ _ _ I a Ha).
    case_decide; [|done]. subst.
    assert (Hi : t ∈ waiters l) by done.
    apply list_elem_of_lookup_1 in Hi as [i Hi].
    assert (queue l !! (S i) = Some t) as Hqi by (unfold queue; by rewrite Hh).
    destruct (gi_sorted _ _ _ I 0 (S i) t t) as (ra & rb & E1 & E2 & ?);
      [lia|done|done|]. simplify_eq. lia.
  - apply (gi_free _ _ _ I).
  - intros i j a b Hij Ha Hb. rewrite !Hr. by apply (gi_sorted _ _ _ I i j).
  - intros a r st. rewrite Hr, when_start. case_decide; [subst|apply (gi_reach_start _ _ _ I)].
    intros E ?. simplify_eq. by apply when_lt in E.
  - intros a st f. rewrite when_start, Hf.
    case_decide; [subst|apply (gi_start_finish _ _ _ I)].
    intros _ E. assert (is_Some (when (is_finish t) tr)) as HS by (rewrite E; eauto).
    apply (gi_finish _ _ _ I) in HS. congruence.
  - intros a b ra rb sb. rewrite !Hr, !when_start, Hf. intros Ha Hb Hlt Hsb.
    destruct (decide (b = t)) as [->|Hbt].
    + simplify_eq.
      assert (a ≠ t) by (intros ->; simplify_eq; lia).
      rewrite decide_False by done.
      destruct (ph a) eqn:Hpa.
      * apply (gi_reach _ _ _ I) in Hpa. congruence.
      * assert (Hin : a ∈ queue l) by (apply (gi_queue _ _ _ I); by left).
        apply list_elem_of_lookup_1 in Hin as [i Hi].
        destruct i as [|i]; [congruence|].
        destruct (gi_sorted _ _ _ I 0 (S i) t a) as (r1 & r2 & E1 & E2 & ?);
          [lia|done|done|]. simplify_eq. lia.
      * apply (gi_holder _ _ _ I) in Hpa. congruence.
      * destruct (Hdone a) as (sa & fa & ? & ? & ? & ?); eauto 10.
    + destruct (gi_fifo _ _ _ I a b ra rb sb) as (sa & fa & E1 & E2 & ? & ?); try done.
      assert (a ≠ t) by (intros ->; congruence).
      rewrite decide_False by done. eauto 10.
  - intros a b sa sb. rewrite !when_start, Hf. intros Ha Hb Hlt.
    destruct (decide (b = t)) as [->|Hbt].
    + simplify_eq. destruct (decide (a = t)) as [->|Hat]; [simplify_eq; lia|].
      assert (is_Some (when (is_start a) tr)) as HS by (rewrite Ha; eauto).
      apply (gi_start _ _ _ I) in HS as [HS|HS].
      * apply (gi_holder _ _ _ I) in HS. congruence.
      * destruct (Hdone a) as (sa' & fa & ? & ? & ? & ?); eauto.
    + destruct (decide (a = t)) as [->|Hat].
      * simplify_eq. apply when_lt in Hb. lia.
      * by apply (gi_excl _ _ _ I a b sa sb).
Qed.

Lemma queue_released l t :
  holder l = Some t → queue (released l) = waiters l.
Proof. unfold released, queue. by destruct (waiters l). Qed.

(** The backend call of the running task is over and the lock released. *)
Lemma GateInv_finish l ph tr t r :
  ph t = PhRunning →
  GateInv l ph tr →
  GateInv (released l) (upd ph t PhFinished) (EvFinish t r :: tr).
Proof.
  intros Ht I.
  pose proof (gi_holder _ _ _ I t Ht) as Hh.
  pose proof (queue_released l t Hh) as Hq.
  assert (Hql : queue l = t :: waiters l) by (unfold queue; by rewrite Hh).
  assert (Hr : ∀ a, when (is_reach a) (EvFinish t r :: tr) = when (is_reach a) tr) by done.
  assert (Hs : ∀ a, when (is_start a) (EvFinish t r :: tr) = when (is_start a) tr) by done.
  assert (Hnof : when (is_finish t) tr = None).
  { destruct (when (is_finish t) tr) eqn:E; [|done].
    assert (is_Some (when (is_finish t) tr)) as HS by (rewrite E; eauto).
    apply (gi_finish _ _ _ I) in HS; congruence. }
  assert (Hnw : t ∉ waiters l).
  { intros Hin. apply (gi_waiters _ _ _ I) in Hin. congruence. }
  split.
  - intros a. rewrite Hr. unfold upd. case_decide; [subst|apply (gi_reach _ _ _ I)].
    rewrite (gi_reach _ _ _ I). split; congruence.
  - intros a. rewrite Hs. unfold upd. case_decide; [subst|apply (gi_start _ _ _ I)].
    rewrite (gi_start _ _ _ I). tauto.
  - intros a. rewrite when_finish. unfold upd. case_decide; [|apply (gi_finish _ _ _ I)].
    split; eauto.
  - intros a. rewrite Hq. unfold upd. case_decide; [subst|].
    + split; [done|]. intros [|]; congruence.
    + rewrite <- (gi_queue _ _ _ I), Hql, elem_of_cons. tauto.
  - intros a. unfold upd. case_decide; [done|]. intros Ha.
    apply (gi_holder _ _ _ I) in Ha. congruence.
  - intros a Ha. unfold upd.
    assert (a ∈ waiters l) as Hin.
    { unfold released in Ha. destruct (waiters l); simpl in *; set_solver. }
    case_decide; [by subst|]. by apply (gi_waiters _ _ _ I).
  - unfold released. by destruct (waiters l).
  - intros i j a b Hij. rewrite Hq, !Hr. intros Ha Hb.
    apply (gi_sorted _ _ _ I (S i) (S j)); [lia|by rewrite Hql..].
  - intros a r0 st. rewrite Hr, Hs. apply (gi_reach_start _ _ _ I).
  - intros a st f. rewrite Hs, when_finish.
    case_decide; [subst|apply (gi_start_finish _ _ _ I)].
    intros E ?. simplify_eq. by apply when_lt in E.
  - intros a b ra rb sb. rewrite !Hr, !Hs, when_finish. intros Ha Hb Hlt Hsb.
    destruct (gi_fifo _ _ _ I a b ra rb sb) as (sa & fa & E1 & E2 & ? & ?); try done.
    assert (a ≠ t) by (intros ->; congruence).
    rewrite decide_False by done. eauto 10.
  - intros a b sa sb. rewrite !Hs, when_finish. intros Ha Hb Hlt.
    destruct (gi_excl _ _ _ I a b sa sb) as (fa & E2 & ?); try done.
    assert (a ≠ t) by (intros ->; congruence).
    rewrite decide_False by done. eauto.
Qed.

(** ** Every step, by what it does *)

Lemma step_effect l s s' : Inv s → step l s = Some s' → effect s l s'.
Proof.
  intros I. destruct l as [p r|t|t|t w|t fault|j|ws fault|ws frame|f]; simpl.
  - case_decide; [|done]. intros [= <-]. by constructor.
  - destruct (tasks s !! t) as [[j p []]|] eqn:E; try done. intros [= <-].
    rewrite process_job_enter_effect. simpl.
    destruct (gate_free (processing_lock s)) eqn:G; econstructor; eauto.
  - destruct (tasks s !! t) as [[j p []]|] eqn:E; try done.
    case_decide; [|done]. intros [= <-].
    rewrite process_job_locked_effect. simpl. econstructor; eauto.
  - destruct (tasks s !! t) as [[j p []]|] eqn:E; try done. intros [= <-].
    assert (holder (processing_lock s) = Some t) as Hh.
    { apply (gi_holder _ _ _ I). unfold pc_of. by rewrite E. }
    destruct (process_job_resume_effect t (Task j p PjRunning) w s t Hh)
      as (f & c & -> & ->). simpl. by econstructor.
  - destruct (tasks s !! t) as [[j p []]|] eqn:E; try done. intros [= <-].
    destruct (process_job_sent_effect t (Task j p (PjSending ws final_result pending))
                ws final_result pending fault s) as (c & ->).
    by econstructor.
  - intros [= <-]. constructor.
  - destruct (sockets s !! ws) as [[j []]|] eqn:E; try done. intros [= <-].
    destruct (websocket_endpoint_accepted_effect ws (Socket j WsAccepting) fault s)
      as (ac & sk & c & ->). by constructor.
  - destruct (sockets s !! ws) as [[j []]|] eqn:E; try done. intros [= <-].
    destruct (websocket_endpoint_received_effect ws (Socket j WsListening) frame s)
      as (ac & sk & c & ->). by constructor.
  - intros [= <-]. constructor.
Qed.

Lemma phase_alter (ts : list task) t k pc t' :
  ts !! t = Some k →
  phase_of (t_pc <$> alter (with_pc pc) t ts !! t') =
    upd (λ a, phase_of (t_pc <$> ts !! a)) t (phase_of (Some pc)) t'.
Proof.
  intros E. unfold upd. case_decide; subst.
  - by rewrite list_lookup_alter_eq, E.
  - by rewrite list_lookup_alter_ne.
Qed.

Lemma phase_alter_same (ts : list task) t k pc t' :
  ts !! t = Some k →
  phase_of (Some (t_pc k)) = phase_of (Some pc) →
  phase_of (t_pc <$> alter (with_pc pc) t ts !! t') = phase_of (t_pc <$> ts !! t').
Proof.
  intros E Hp. destruct (decide (t' = t)); subst.
  - by rewrite list_lookup_alter_eq, E.
  - by rewrite list_lookup_alter_ne.
Qed.

Lemma Inv_effect l s s' : Inv s → effect s l s' → Inv s'.
Proof.
  unfold Inv, pc_of. intros I H. destruct H; simpl.
  - apply GateInv_quiet; [done|]. eapply GateInv_ext; [|exact I].
    intros t. simpl. destruct (decide (t < length (tasks s))).
    + by rewrite lookup_app_l.
    + rewrite (lookup_ge_None_2 (tasks s)) by lia.
      destruct (decide (t = length (tasks s))); subst.
      * by rewrite list_lookup_middle.
      * rewrite lookup_ge_None_2; [done|]. rewrite length_app. simpl. lia.
  - assert (fst (lock_acquire t (processing_lock s)) = MkLock (Some t) []) as <-.
    { unfold lock_acquire, gate_free in *.
      by destruct (holder (processing_lock s)), (waiters (processing_lock s)). }
    assert (GateInv (fst (lock_acquire t (processing_lock s)))
              (upd (λ a, phase_of (t_pc <$> tasks s !! a)) t PhWaiting)
              (EvReach t :: trace s)) as I1.
    { apply GateInv_reach; [|exact I]. simpl. by rewrite H. }
    apply (GateInv_granted _ _ _ t) in I1.
    + eapply GateInv_ext; [|exact I1].
      intros a. simpl. erewrite phase_alter by done.
      unfold upd. simpl. by case_decide.
    + unfold upd. by rewrite decide_True.
    + unfold lock_acquire, gate_free in *.
      by destruct (holder (processing_lock s)), (waiters (processing_lock s)).
  - assert (fst (lock_acquire t (processing_lock s)) =
              MkLock (holder (processing_lock s)) (waiters (processing_lock s) ++ [t]))
      as <-.
    { unfold lock_acquire, gate_free in *.
      by destruct (holder (processing_lock s)), (waiters (processing_lock s)). }
    eapply GateInv_ext; [|apply (GateInv_reach _ (λ a, phase_of (t_pc <$> tasks s !! a)) _ t);
                          [|exact I]].
    + intros a. simpl. by erewrite phase_alter.
    + simpl. by rewrite H.
  - eapply GateInv_ext;
      [|apply (GateInv_granted _ (λ a, phase_of (t_pc <$> tasks s !! a)) _ t);
        [| |exact I]].
    + intros a. simpl. by erewrite phase_alter.
    + simpl. by rewrite H.
    + done.
  - do 2 (apply GateInv_quiet; [done|]).
    eapply GateInv_ext;
      [|apply (GateInv_finish _ (λ a, phase_of (t_pc <$> tasks s !! a)) _ t);
        [|exact I]].
    + intros a. simpl. erewrite phase_alter by done. unfold upd.
      case_decide; [|done]. unfold after_result. by case_match.
    + simpl. by rewrite H.
  - assert (GateInv (processing_lock s)
              (λ t0, phase_of (t_pc <$> alter (with_pc (PjDone pending)) t (tasks s) !! t0))
              (trace s)) as I'.
    { eapply GateInv_ext; [|exact I]. intros a. simpl.
      symmetry. by eapply phase_alter_same. }
    destruct (send_ok s ws fault); [by apply GateInv_quiet|done].
  - done.
  - done.
  - done.
Qed.

Lemma Inv_initial : Inv initial_state.
Proof. eapply GateInv_ext; [|apply GateInv_initial]. done. Qed.

Lemma Inv_run ls s s' : Inv s → run ls s = Some s' → Inv s'.
Proof.
  revert s. induction ls as [|l ls IH]; simpl; intros s I H; [by simplify_eq|].
  destruct (step l s) as [s1|] eqn:E; [|done].
  eapply IH; [|done]. eapply Inv_effect; [done|]. by apply step_effect.
Qed.

Lemma Inv_reachable s : reachable s → Inv s.
Proof. intros [ls H]. eapply Inv_run; [apply Inv_initial|done]. Qed.

(** ** Mutual exclusion and arrival order *)

Lemma filter_none {A} (P : A → Prop) `{∀ x, Decision (P x)} (l : list A) :
  (∀ x, x ∈ l → ¬ P x) → filter P l = [].
Proof.
  induction l as [|x l IH]; [done|]. intros Hn.
  rewrite filter_cons. rewrite decide_False by (apply Hn; left).
  apply IH. intros y Hy. apply Hn. by right.
Qed.

Lemma filter_at_most_one {A} (P : A → Prop) `{∀ x, Decision (P x)} (l : list A) :
  (∀ i j x y, l !! i = Some x → l !! j = Some y → P x → P y → i = j) →
  length (filter P l) ≤ 1.
Proof.
  induction l as [|x l IH]; [simpl; lia|]. intros Hu.
  rewrite filter_cons. case_decide as Hx.
  - rewrite filter_none; [simpl; lia|].
    intros y [j Hj]%list_elem_of_lookup_1 Hy.
    specialize (Hu 0 (S j) x y eq_refl Hj Hx Hy). lia.
  - apply IH. intros i j a b Ha Hb Pa Pb.
    specialize (Hu (S i) (S j) a b Ha Hb Pa Pb). lia.
Qed.

Lemma run_reachable ls s : run ls initial_state = Some s → reachable s.
Proof. intros H. by exists ls. Qed.

(** C1. In every state the program can reach, at most one backend call is
    in flight: the reentrancy counter of the invoker never exceeds 1, a
    task whose call is in flight holds the processing lock, and of two
    calls the one that starts first has finished before the other starts. *)
Theorem C1_single_flight (s : State) :
  reachable s →
  in_flight s ≤ 1
  ∧ (∀ t, pc_of s t = Some PjRunning → holder (processing_lock s) = Some t)
  ∧ (∀ a b sa sb,
       when (is_start a) (trace s) = Some sa →
       when (is_start b) (trace s) = Some sb →
       sa < sb →
       ∃ fa, when (is_finish a) (trace s) = Some fa ∧ fa < sb).
Proof.
  intros I%Inv_reachable.
  assert (Hh : ∀ t, pc_of s t = Some PjRunning → holder (processing_lock s) = Some t).
  { intros t E. apply (gi_holder _ _ _ I). simpl. by rewrite E. }
  split; [|split; [done|apply (gi_excl _ _ _ I)]].
  apply filter_at_most_one. intros i j x y Hx Hy Px Py.
  assert (pc_of s i = Some PjRunning) as Hi.
  { unfold pc_of. rewrite Hx. simpl. unfold running in Px. by destruct (t_pc x). }
  assert (pc_of s j = Some PjRunning) as Hj.
  { unfold pc_of. rewrite Hy. simpl. unfold running in Py. by destruct (t_pc y). }
  apply Hh in Hi, Hj. congruence.
Qed.

Lemma C1_single_flight_witness :
  in_flight (state_after two_jobs_run) ≤ 1
  ∧ (∀ t, pc_of (state_after two_jobs_run) t = Some PjRunning →
          holder (processing_lock (state_after two_jobs_run)) = Some t)
  ∧ (∀ a b sa sb,
       when (is_start a) (trace (state_after two_jobs_run)) = Some sa →
       when (is_start b) (trace (state_after two_jobs_run)) = Some sb →
       sa < sb →
       ∃ fa, when (is_finish a) (trace (state_after two_jobs_run)) = Some fa ∧ fa < sb).
Proof.
  apply C1_single_flight. apply (run_reachable two_jobs_run). vm_compute. reflexivity.
Defined.

(** C2. Of two jobs, the one whose task arrives at the lock first has its
    backend call started and finished before the call of the other one
    starts; the holder and the waiters stand in the lock in the order of
    their arrival. *)
Theorem C2_fifo (s : State) (a b ra rb sb : nat) :
  reachable s →
  when (is_reach a) (trace s) = Some ra →
  when (is_reach b) (trace s) = Some rb →
  ra < rb →
  when (is_start b) (trace s) = Some sb →
  (∃ sa fa, when (is_start a) (trace s) = Some sa ∧
            when (is_finish a) (trace s) = Some fa ∧ sa < fa ∧ fa < sb)
  ∧ (∀ i j x y, i < j →
       queue (processing_lock s) !! i = Some x →
       queue (processing_lock s) !! j = Some y →
       ∃ rx ry, when (is_reach x) (trace s) = Some rx ∧
                when (is_reach y) (trace s) = Some ry ∧ rx < ry).
Proof.
  intros I%Inv_reachable Ha Hb Hlt Hsb. split.
  - by apply (gi_fifo _ _ _ I a b ra rb sb).
  - apply (gi_sorted _ _ _ I).
Qed.

Lemma C2_fifo_witness :
  (∃ sa fa, when (is_start 1) (trace (state_after queue_run)) = Some sa ∧
            when (is_finish 1) (trace (state_after queue_run)) = Some fa ∧
            sa < fa ∧ fa < 10)
  ∧ (∀ i j x y, i < j →
       queue (processing_lock (state_after queue_run)) !! i = Some x →
       queue (processing_lock (state_after queue_run)) !! j = Some y →
       ∃ rx ry, when (is_reach x) (trace (state_after queue_run)) = Some rx ∧
                when (is_reach y) (trace (state_after queue_run)) = Some ry ∧
                rx < ry).
Proof.
  apply (C2_fifo (state_after queue_run) 1 0 3 5 10).
  - apply (run_reachable queue_run). vm_compute. reflexivity.
  - vm_compute. reflexivity.
  - vm_compute. reflexivity.
  - lia.
  - vm_compute. reflexivity.
Defined.

(** ** The ledger of results *)

Lemma Ledger_initial : Ledger (λ _, LpIdle) (λ _, None) [].
Proof.
  split; simpl; try done.
  - intros ??? ?%elem_of_nil. done.
  - intros ?? ?%elem_of_nil. done.
  - intros ?? ?%elem_of_nil. done.
Qed.

Lemma Ledger_ext lp lp' parf parf' tr :
  (∀ t, lp t = lp' t) →
  (∀ t p, parf t = Some p → parf' t = Some p) →
  Ledger lp parf tr → Ledger lp' parf' tr.
Proof.
  intros E Hp [].
  split; intros; rewrite <- ?E in *; eauto.
  - apply lg_noescape0.
  - apply lg_sent0.
  - destruct (lg_finish_outcome0 _ _ H) as (p & w & s0 & ? & ?). eauto 10.
Qed.

Lemma Ledger_hushed lp parf tr e :
  hushed e = true → Ledger lp parf tr → Ledger lp parf (e :: tr).
Proof.
  intros Hq [].
  assert (H1 : ∀ t, when (is_result t) (e :: tr) = when (is_result t) tr)
    by (intros; apply when_quiet; by destruct e).
  assert (H2 : ∀ t, when (is_release t) (e :: tr) = when (is_release t) tr)
    by (intros; apply when_quiet; by destruct e).
  assert (H3 : ∀ t, count (is_result t) (e :: tr) = count (is_result t) tr)
    by (intros; by destruct e).
  assert (H4 : ∀ t, count (is_finish t) (e :: tr) = count (is_finish t) tr)
    by (intros; by destruct e).
  assert (H5 : ∀ t, count (is_sent t) (e :: tr) = count (is_sent t) tr)
    by (intros; by destruct e).
  assert (H6 : ∀ x, hushed x = false → x ∈ e :: tr ↔ x ∈ tr).
  { intros x Hx. rewrite elem_of_cons. split; [|by right].
    intros [->|]; [congruence|done]. }
  split.
  - intros t d. rewrite H1, H2. apply lg_release0.
  - done.
  - intros t. by rewrite H3.
  - intros t. by rewrite H4.
  - intros t. rewrite H5. apply lg_sent0.
  - intros t ws d pending E. rewrite H6 by done. eauto.
  - intros ws t d. rewrite !H6 by done. apply lg_sent_result0.
  - intros t d. rewrite H6 by done. intros H.
    destruct (lg_result_finish0 _ _ H) as (r & ? & ?).
    exists r. by rewrite H6.
  - intros t r. rewrite H6 by done. apply lg_finish_outcome0.
Qed.

Lemma eqb_decide (a t : nat) : (a =? t) = bool_decide (a = t).
Proof.
  destruct (Nat.eqb_spec a t); [by rewrite bool_decide_true|by rewrite bool_decide_false].
Qed.

(** The backend call of task [t] is over: outcome, release, result. *)
Lemma Ledger_finish lp parf tr t p w s0 x :
  lp t = LpIdle →
  parf t = Some p →
  let r := fst (run_musetalk_inference w p s0) in
  (x = LpDone None ∨ ∃ ws, x = LpSending ws (final_result_of r) None) →
  Ledger lp parf tr →
  Ledger (updl lp t x) parf
    (EvResult t (final_result_of r) :: EvRelease t :: EvFinish t r :: tr).
Proof.
  intros Ht Hp r Hx L.
  assert (Hni : idle x = false) by (destruct Hx as [->|[? ->]]; done).
  split.
  - intros a d. simpl. rewrite !eqb_decide.
    case_bool_decide; [subst|apply (lg_release _ _ _ L)].
    intros [= <-]. eexists. split; [done|lia].
  - intros a. unfold updl. case_decide; [|apply (lg_noescape _ _ _ L)].
    by destruct Hx as [->|[? ->]].
  - intros a. simpl. rewrite eqb_decide. unfold updl.
    pose proof (lg_results _ _ _ L a) as Hc.
    case_bool_decide; case_decide; try done; subst; simpl.
    all: rewrite Hc, ?Ht, ?Hni; done.
  - intros a. simpl. rewrite eqb_decide. unfold updl.
    pose proof (lg_finishes _ _ _ L a) as Hc.
    case_bool_decide; case_decide; try done; subst; simpl.
    all: rewrite Hc, ?Ht, ?Hni; done.
  - intros a. simpl. unfold updl.
    pose proof (lg_sent _ _ _ L a) as Hc.
    case_decide; [subst|done]. rewrite Ht in Hc.
    destruct Hx as [->|[? ->]]; [lia|done].
  - intros a ws d pending. unfold updl. case_decide.
    + subst. destruct Hx as [->|[? ->]]; [done|]. intros [= <- <- <-]. left.
    + intros E. do 3 right. by eapply (lg_sending _ _ _ L).
  - intros ws a d. rewrite !elem_of_cons. intros [?|[?|[?|H]]]; try done.
    do 3 right. by eapply (lg_sent_result _ _ _ L).
  - intros a d. rewrite !elem_of_cons. intros [E|[?|[?|H]]]; try done.
    + simplify_eq. exists r. split; [|done]. rewrite !elem_of_cons. eauto.
    + destruct (lg_result_finish _ _ _ L _ _ H) as (r' & ? & ?).
      exists r'. rewrite !elem_of_cons. eauto.
  - intros a r'. rewrite !elem_of_cons. intros [?|[?|[E|H]]]; try done.
    + simplify_eq. eauto 10.
    + by apply (lg_finish_outcome _ _ _ L).
Qed.

(** [send_json] has answered task [t]. *)
Lemma Ledger_sent lp parf tr t ws d pending (ok : bool) :
  lp t = LpSending ws d pending →
  Ledger lp parf tr →
  Ledger (updl lp t (LpDone pending)) parf
    (if ok then EvSent ws t d :: tr else tr).
Proof.
  intros Ht L.
  assert (Hw : ∀ P, (∀ w a x, P (EvSent w a x) = false) →
            when P (if ok then EvSent ws t d :: tr else tr) = when P tr).
  { intros P HP. destruct ok; [|done]. simpl. by rewrite HP. }
  assert (Hc : ∀ P, (∀ w a x, P (EvSent w a x) = false) →
            count P (if ok then EvSent ws t d :: tr else tr) = count P tr).
  { intros P HP. destruct ok; [|done]. simpl. by rewrite HP. }
  assert (Hin : ∀ e, e ∈ tr → e ∈ (if ok then EvSent ws t d :: tr else tr)).
  { intros e He. destruct ok; [by right|done]. }
  assert (Hni : ∀ e, (∀ w a x, e ≠ EvSent w a x) →
            e ∈ (if ok then EvSent ws t d :: tr else tr) → e ∈ tr).
  { intros e He. destruct ok; [|done]. rewrite elem_of_cons. intros [->|]; [|done].
    by destruct (He ws t d). }
  split.
  - intros a x. rewrite !Hw by done. apply (lg_release _ _ _ L).
  - intros a. unfold updl. pose proof (lg_noescape _ _ _ L a) as Hn.
    case_decide; [subst|done]. rewrite Ht in Hn. by destruct pending.
  - intros a. rewrite Hc by done. unfold updl.
    pose proof (lg_results _ _ _ L a) as Hr.
    case_decide; [subst|done]. by rewrite Hr, Ht.
  - intros a. rewrite Hc by done. unfold updl.
    pose proof (lg_finishes _ _ _ L a) as Hr.
    case_decide; [subst|done]. by rewrite Hr, Ht.
  - intros a. unfold updl. pose proof (lg_sent _ _ _ L a) as Hs.
    case_decide; [subst|].
    + rewrite Ht in Hs. destruct ok; simpl; rewrite Hs; [|lia].
      case_match; lia.
    + destruct ok; [|done]. simpl. rewrite eqb_decide.
      by rewrite bool_decide_false.
  - intros a w' x pend. unfold updl. case_decide; [done|].
    intros E. apply Hin. by eapply (lg_sending _ _ _ L).
  - intros w' a x Hs. apply Hin.
    destruct ok; [|by eapply (lg_sent_result _ _ _ L)].
    apply elem_of_cons in Hs as [E|Hs].
    + simplify_eq. by eapply (lg_sending _ _ _ L).
    + by eapply (lg_sent_result _ _ _ L).
  - intros a x Hx. apply Hni in Hx; [|done].
    destruct (lg_result_finish _ _ _ L _ _ Hx) as (r & ? & ?). eauto.
  - intros a r Hr. apply Hni in Hr; [|done]. by apply (lg_finish_outcome _ _ _ L).
Qed.

Lemma lphase_alter (ts : list task) t k pc t' :
  ts !! t = Some k →
  lphase_of (t_pc <$> alter (with_pc pc) t ts !! t') =
    updl (λ a, lphase_of (t_pc <$> ts !! a)) t (lphase_of (Some pc)) t'.
Proof.
  intros E. unfold updl. case_decide; subst.
  - by rewrite list_lookup_alter_eq, E.
  - by rewrite list_lookup_alter_ne.
Qed.

Lemma lphase_alter_idle (ts : list task) t k pc t' :
  ts !! t = Some k →
  lphase_of (Some (t_pc k)) = LpIdle → lphase_of (Some pc) = LpIdle →
  lphase_of (t_pc <$> ts !! t') = lphase_of (t_pc <$> alter (with_pc pc) t ts !! t').
Proof.
  intros E H1 H2. destruct (decide (t' = t)); subst.
  - rewrite list_lookup_alter_eq, E. simpl in *. congruence.
  - by rewrite list_lookup_alter_ne.
Qed.

Lemma params_alter (ts : list task) t pc t' :
  t_job_params <$> alter (with_pc pc) t ts !! t' = t_job_params <$> ts !! t'.
Proof.
  destruct (decide (t' = t)); subst.
  - rewrite list_lookup_alter_eq. by destruct (ts !! t).
  - by rewrite list_lookup_alter_ne.
Qed.

Lemma lookup_snoc_new (ts : list task) (k : task) t :
  lphase_of (t_pc <$> ts !! t) = lphase_of (t_pc <$> (ts ++ [k]) !! t) ∨
  (ts !! t = None ∧ (ts ++ [k]) !! t = Some k).
Proof.
  destruct (decide (t < length ts)).
  - left. by rewrite lookup_app_l.
  - destruct (decide (t = length ts)); subst.
    + right. split; [by apply lookup_ge_None_2|by rewrite list_lookup_middle].
    + left. rewrite !lookup_ge_None_2; [done|rewrite length_app; simpl; lia|lia].
Qed.

Lemma Led_effect l s s' : Led s → effect s l s' → Led s'.
Proof.
  unfold Led, pc_of. intros L H. destruct H; simpl.
  - apply Ledger_hushed; [done|]. eapply Ledger_ext; [| |exact L].
    + intros t. simpl.
      destruct (lookup_snoc_new (tasks s) (Task (uuid4_str r) p PjCreated) t)
        as [E|[E1 E2]]; [done|]. by rewrite E1, E2.
    + intros t q. simpl. destruct (tasks s !! t) eqn:E; [|done].
      by rewrite (lookup_app_l_Some _ _ _ _ E).
  - do 2 (apply Ledger_hushed; [done|]). eapply Ledger_ext; [| |exact L].
    + intros a. by eapply lphase_alter_idle.
    + intros a q. simpl. by rewrite params_alter.
  - apply Ledger_hushed; [done|]. eapply Ledger_ext; [| |exact L].
    + intros a. by eapply lphase_alter_idle.
    + intros a q. simpl. by rewrite params_alter.
  - apply Ledger_hushed; [done|]. eapply Ledger_ext; [| |exact L].
    + intros a. by eapply lphase_alter_idle.
    + intros a q. simpl. by rewrite params_alter.
  - eapply Ledger_ext;
      [| |apply (Ledger_finish (λ a, lphase_of (t_pc <$> tasks s !! a)) _ _ t p w s
                   (lphase_of (Some (after_result s j
                      (final_result_of (fst (run_musetalk_inference w p s)))))));
          [| | |exact L]].
    + intros a. simpl. symmetry. by eapply lphase_alter.
    + intros a q. simpl. by rewrite params_alter.
    + simpl. by rewrite H.
    + simpl. by rewrite H.
    + unfold after_result. case_match; simpl; eauto.
  - eapply Ledger_ext;
      [| |apply (Ledger_sent (λ a, lphase_of (t_pc <$> tasks s !! a)) _ _ t ws d pending
                   (send_ok s ws fault)); [|exact L]].
    + intros a. simpl. symmetry. by eapply lphase_alter.
    + intros a q. simpl. by rewrite params_alter.
    + simpl. by rewrite H.
  - done.
  - done.
  - done.
Qed.

Lemma Led_initial : Led initial_state.
Proof. eapply Ledger_ext; [| |apply Ledger_initial]; done. Qed.

Lemma Inv_Led_run ls s s' : Inv s → Led s → run ls s = Some s' → Inv s' ∧ Led s'.
Proof.
  revert s. induction ls as [|l ls IH]; simpl; intros s I L H; [by simplify_eq|].
  destruct (step l s) as [s1|] eqn:E; [|done].
  pose proof (step_effect _ _ _ I E) as Hs.
  eapply IH; [| |done]; [by eapply Inv_effect|by eapply Led_effect].
Qed.

Lemma Led_reachable s : reachable s → Led s.
Proof.
  intros [ls H]. by eapply (Inv_Led_run ls initial_state);
    [apply Inv_initial|apply Led_initial|].
Qed.

(** ** Release, failure and the result *)

Lemma step_backend s t j p w :
  Inv s →
  tasks s !! t = Some (Task j p PjRunning) →
  let r := fst (run_musetalk_inference w p s) in
  ∃ c, step (LBackend t w) s =
    Some (MkState (released (processing_lock s)) (active_connections s)
            (alter (with_pc (after_result s j (final_result_of r))) t (tasks s))
            (sockets s) (fs (snd (run_musetalk_inference w p s))) c
            (EvResult t (final_result_of r) :: EvRelease t :: EvFinish t r :: trace s)).
Proof.
  intros I E r. simpl. rewrite E.
  assert (holder (processing_lock s) = Some t) as Hh.
  { apply (gi_holder _ _ _ I). unfold pc_of. by rewrite E. }
  destruct (process_job_resume_effect t (Task j p PjRunning) w s t Hh)
    as (f & c & -> & ->). eauto.
Qed.

Lemma pc_of_alter (ts : list task) t k pc lk ac sk f c tr :
  ts !! t = Some k →
  pc_of (MkState lk ac (alter (with_pc pc) t ts) sk f c tr) t = Some pc.
Proof. intros E. unfold pc_of. simpl. by rewrite list_lookup_alter_eq, E. Qed.

Lemma Inv_waiting s n :
  Inv s → n ∈ waiters (processing_lock s) →
  ∃ j p, tasks s !! n = Some (Task j p PjWaiting).
Proof.
  intros I Hn. apply (gi_waiters _ _ _ I) in Hn. unfold pc_of in Hn.
  destruct (tasks s !! n) as [[j p []]|]; try done. eauto.
Qed.

(** C3. Whatever the backend call gives, a result or an exception, the
    lock is released before the result is handed to delivery: in every
    trace the release of a job comes before its result; after the step the
    job no longer holds the lock; if nobody waited the lock is free and a
    task that arrives takes it at once, else the first waiter holds it and
    can go on. *)
Theorem C3_release_before_delivery (s : State) :
  reachable s →
  (∀ t d, when (is_result t) (trace s) = Some d →
          ∃ r, when (is_release t) (trace s) = Some r ∧ r < d)
  ∧ (∀ t j p w,
       tasks s !! t = Some (Task j p PjRunning) →
       ∃ s', step (LBackend t w) s = Some s'
         ∧ processing_lock s' = released (processing_lock s)
         ∧ holder (processing_lock s') ≠ Some t
         ∧ (waiters (processing_lock s) = [] →
              gate_free (processing_lock s') = true ∧
              ∀ u ju pu, tasks s' !! u = Some (Task ju pu PjCreated) →
                ∃ s'', step (LProcessJob u) s' = Some s'' ∧
                       pc_of s'' u = Some PjRunning)
         ∧ (∀ n rest, waiters (processing_lock s) = n :: rest →
              holder (processing_lock s') = Some n ∧
              ∃ s'', step (LGranted n) s' = Some s'' ∧
                     pc_of s'' n = Some PjRunning)).
Proof.
  intros R. pose proof (Inv_reachable _ R) as I. pose proof (Led_reachable _ R) as L.
  split; [apply (lg_release _ _ _ L)|].
  intros t j p w E. destruct (step_backend s t j p w I E) as (c & Hs).
  eexists. split; [exact Hs|]. simpl.
  assert (Hnw : t ∉ waiters (processing_lock s)).
  { intros Hin. apply (gi_waiters _ _ _ I) in Hin. unfold pc_of in Hin.
    by rewrite E in Hin. }
  split; [done|]. split; [|split].
  - unfold released. destruct (waiters (processing_lock s)) as [|n rest]; [done|].
    simpl. intros [= ->]. apply Hnw. left.
  - intros Hw. unfold released. rewrite Hw. split; [done|].
    intros u ju pu Eu. simpl. rewrite Eu. eexists. split; [done|].
    rewrite process_job_enter_effect. simpl. by eapply pc_of_alter.
  - intros n rest Hw. unfold released. rewrite Hw. split; [done|]. simpl.
    assert (n ∈ waiters (processing_lock s)) as Hn by (rewrite Hw; left).
    destruct (Inv_waiting _ _ I Hn) as (jn & pn & En).
    assert (n ≠ t) by (intros ->; congruence).
    rewrite list_lookup_alter_ne by done. rewrite En.
    rewrite decide_True by done.
    eexists. split; [done|].
    rewrite process_job_locked_effect. simpl. eapply pc_of_alter. simpl.
    rewrite list_lookup_alter_ne by done. exact En.
Qed.

Lemma C3_release_before_delivery_witness :
  (∀ t d, when (is_result t) (trace (state_after two_jobs_run)) = Some d →
          ∃ r, when (is_release t) (trace (state_after two_jobs_run)) = Some r ∧ r < d)
  ∧ (∀ t j p w,
       tasks (state_after two_jobs_run) !! t = Some (Task j p PjRunning) →
       ∃ s', step (LBackend t w) (state_after two_jobs_run) = Some s'
         ∧ processing_lock s' = released (processing_lock (state_after two_jobs_run))
         ∧ holder (processing_lock s') ≠ Some t
         ∧ (waiters (processing_lock (state_after two_jobs_run)) = [] →
              gate_free (processing_lock s') = true ∧
              ∀ u ju pu, tasks s' !! u = Some (Task ju pu PjCreated) →
                ∃ s'', step (LProcessJob u) s' = Some s'' ∧
                       pc_of s'' u = Some PjRunning)
         ∧ (∀ n rest, waiters (processing_lock (state_after two_jobs_run)) = n :: rest →
              holder (processing_lock s') = Some n ∧
              ∃ s'', step (LGranted n) s' = Some s'' ∧
                     pc_of s'' n = Some PjRunning)).
Proof.
  apply C3_release_before_delivery.
  apply (run_reachable two_jobs_run). vm_compute. reflexivity.
Defined.

(** Scenario B: the backend raises ValueError("boom") for the first job;
    the second, which waited, then runs. *)
Example release_on_failure :
  option_map (λ s, (processing_lock s, map t_pc (tasks s)))
    (run (two_jobs_run ++ [LBackend 0 (failing_world "boom"); LGranted 1])
       initial_state)
  = Some (MkLock (Some 1) [],
          [PjDone None; PjRunning]).
Proof. vm_compute. reflexivity. Qed.

(** What a successful invocation has done. *)
Lemma run_musetalk_inference_success w p s final s' :
  run_musetalk_inference w p s = (inr final, s') →
  ∃ kwargs result info temp dst content,
    w_predict w kwargs = inr result ∧
    py_getitem0 result = inr info ∧
    py_get info "video" = inr (PStr temp) ∧
    py_getitem p "output_file_path" = inr (PStr dst) ∧
    final = PStr dst ∧
    fs s !! temp = Some content ∧
    fs s' = <[dst := content]> (delete temp (fs s)).
Proof.
  unfold run_musetalk_inference, Client, os_rename.
  destruct s as [lk ac ts sk f c tr]. crunch. intros H.
  repeat (case_match; crunch; simplify_eq/=).
  all: try (eexists _, _, _, _, _, _; repeat split; eauto; fail).
Qed.

Lemma final_result_of_error e : final_result_of (inl e) = error_result e.
Proof. done. Qed.

Lemma Led_no_escape s t :
  Led s →
  (∀ e, pc_of s t ≠ Some (PjDone (Some e)))
  ∧ (∀ ws d e, pc_of s t ≠ Some (PjSending ws d (Some e))).
Proof.
  intros L. pose proof (lg_noescape _ _ _ L t) as H. simpl in H.
  split; intros; intros E; by rewrite E in H.
Qed.

(** C4. When the backend invocation of a job raises [e], the step of
    [process_job] that receives it completes: the result it hands to
    delivery is the failure payload with [str(e)], and the task goes on to
    delivery or ends with no exception pending.  In no reachable state has
    an exception left a [process_job] task or is one pending in it. *)
Theorem C4_exception_to_failure (s : State) :
  reachable s →
  (∀ t j p w e,
     tasks s !! t = Some (Task j p PjRunning) →
     fst (run_musetalk_inference w p s) = inl e →
     ∃ s', step (LBackend t w) s = Some s'
       ∧ head (trace s') =
           Some (EvResult t (PDict [("format", PStr "error");
                                    ("error", PStr (py_str_exn e))]))
       ∧ (pc_of s' t = Some (PjDone None)
          ∨ ∃ ws, pc_of s' t =
                    Some (PjSending ws
                            (PDict [("format", PStr "error");
                                    ("error", PStr (py_str_exn e))]) None)))
  ∧ (∀ t e, pc_of s t ≠ Some (PjDone (Some e))
            ∧ ∀ ws d, pc_of s t ≠ Some (PjSending ws d (Some e))).
Proof.
  intros R. pose proof (Inv_reachable _ R) as I. pose proof (Led_reachable _ R) as L.
  split.
  - intros t j p w e E He.
    destruct (step_backend s t j p w I E) as (c & Hs). rewrite He in Hs.
    eexists. split; [exact Hs|]. split; [done|].
    erewrite pc_of_alter by done. unfold after_result.
    destruct (active_connections s !! j); eauto.
  - intros t e. destruct (Led_no_escape s t L) as [H1 H2]. split; [done|].
    intros ws d. apply H2.
Qed.

Lemma C4_exception_to_failure_witness :
  (∀ t j p w e,
     tasks (state_after one_job_run) !! t = Some (Task j p PjRunning) →
     fst (run_musetalk_inference w p (state_after one_job_run)) = inl e →
     ∃ s', step (LBackend t w) (state_after one_job_run) = Some s'
       ∧ head (trace s') =
           Some (EvResult t (PDict [("format", PStr "error");
                                    ("error", PStr (py_str_exn e))]))
       ∧ (pc_of s' t = Some (PjDone None)
          ∨ ∃ ws, pc_of s' t =
                    Some (PjSending ws
                            (PDict [("format", PStr "error");
                                    ("error", PStr (py_str_exn e))]) None)))
  ∧ (∀ t e, pc_of (state_after one_job_run) t ≠ Some (PjDone (Some e))
            ∧ ∀ ws d, pc_of (state_after one_job_run) t
                        ≠ Some (PjSending ws d (Some e))).
Proof.
  apply C4_exception_to_failure.
  apply (run_reachable one_job_run). vm_compute. reflexivity.
Defined.

(** A body without the audio path: the [KeyError] comes back as text. *)
Example missing_field_is_failure :
  option_map (λ s, head (trace s))
    (run [LExecute (PDict [("video_path", PStr "/in/v.mp4")]) 7;
          LProcessJob 0;
          LBackend 0 (demo_world "/tmp/gradio/x.mp4")] initial_state)
  = Some (Some (EvResult 0 (PDict [("format", PStr "error");
                                   ("error", PStr "'audio_path'")]))).
Proof. vm_compute. reflexivity. Qed.

(** C5. When the backend invocation of a job returns, the file the
    backend left at its temporary path is renamed to the path the request
    gave as [output_file_path], and the result handed to delivery is the
    success payload whose [data] is that path and whose [filename] is its
    base name. *)
Theorem C5_success_result (s : State) (t : nat) (j : string) (p : pyval)
    (w : world) (final : pyval) :
  reachable s →
  tasks s !! t = Some (Task j p PjRunning) →
  fst (run_musetalk_inference w p s) = inr final →
  ∃ kwargs result info temp dst content s',
    w_predict w kwargs = inr result
    ∧ py_getitem0 result = inr info
    ∧ py_get info "video" = inr (PStr temp)
    ∧ py_getitem p "output_file_path" = inr (PStr dst)
    ∧ final = PStr dst
    ∧ fs s !! temp = Some content
    ∧ step (LBackend t w) s = Some s'
    ∧ fs s' = <[dst := content]> (delete temp (fs s))
    ∧ head (trace s') =
        Some (EvResult t (PDict [("format", PStr "filePath");
                                 ("data", PStr dst);
                                 ("filename", PStr (basename dst))]))
    ∧ pc_of s' t =
        Some (after_result s j (PDict [("format", PStr "filePath");
                                       ("data", PStr dst);
                                       ("filename", PStr (basename dst))])).
Proof.
  intros R E Hr. pose proof (Inv_reachable _ R) as I.
  destruct (run_musetalk_inference w p s) as [r s1] eqn:Hrun. simpl in Hr. subst r.
  destruct (run_musetalk_inference_success _ _ _ _ _ Hrun)
    as (kw & res & info & temp & dst & content & H1 & H2 & H3 & H4 & -> & H5 & H6).
  destruct (step_backend s t j p w I E) as (c & Hs). rewrite Hrun in Hs.
  cbn [fst snd] in Hs.
  eexists kw, res, info, temp, dst, content, _.
  split_and!; first [done | exact Hs | by erewrite pc_of_alter].
Qed.

Lemma C5_success_result_witness :
  ∃ kwargs result info temp dst content s',
    w_predict (demo_world "/tmp/gradio/x.mp4") kwargs = inr result
    ∧ py_getitem0 result = inr info
    ∧ py_get info "video" = inr (PStr temp)
    ∧ py_getitem (demo_params "/out/final.mp4") "output_file_path" = inr (PStr dst)
    ∧ PStr "/out/final.mp4" = PStr dst
    ∧ fs (state_after one_job_run) !! temp = Some content
    ∧ step (LBackend 0 (demo_world "/tmp/gradio/x.mp4")) (state_after one_job_run)
        = Some s'
    ∧ fs s' = <[dst := content]> (delete temp (fs (state_after one_job_run)))
    ∧ head (trace s') =
        Some (EvResult 0 (PDict [("format", PStr "filePath");
                                 ("data", PStr dst);
                                 ("filename", PStr (basename dst))]))
    ∧ pc_of s' 0 =
        Some (after_result (state_after one_job_run) (uuid4_str 7)
                (PDict [("format", PStr "filePath");
                        ("data", PStr dst);
                        ("filename", PStr (basename dst))])).
Proof.
  apply (C5_success_result (state_after one_job_run) 0 (uuid4_str 7)
           (demo_params "/out/final.mp4") (demo_world "/tmp/gradio/x.mp4")
           (PStr "/out/final.mp4")).
  - apply (run_reachable one_job_run). vm_compute. reflexivity.
  - vm_compute. reflexivity.
  - vm_compute. reflexivity.
Defined.

(** ** Delivery *)

(** C6. [send_result] never raises.  With no socket registered under the
    job id it returns at once and changes nothing.  With a socket
    registered it sends on that socket, and whatever the send does (the
    socket is closed, the transport fails, or the message goes out) the
    call returns normally; a failed send puts nothing on the socket and
    leaves one line on the console. *)
Theorem C6_delivery_never_raises (s : State) (job_id : string) (data : pyval) :
  match active_connections s !! job_id with
  | None => ConnectionManager.send_result_begin job_id data s = (inr None, s)
  | Some ws =>
      ConnectionManager.send_result_begin job_id data s
        = (inr (Some ws), set_console (WS_SEND job_id :: console s) s)
      ∧ ∀ (s2 : State) (fault : option exn) (t : nat),
          ∃ s3, ConnectionManager.send_result_resume job_id ws data fault t s2
                  = (inr tt, s3)
            ∧ if send_ok s2 ws fault
              then trace s3 = EvSent ws t data :: trace s2 ∧ console s3 = console s2
              else trace s3 = trace s2
                   ∧ ∃ e, console s3 = ERROR_send job_id e :: console s2
  end.
Proof.
  unfold ConnectionManager.send_result_begin, ConnectionManager.send_result_resume,
    websocket_send_json, send_ok.
  destruct (active_connections s !! job_id) as [ws|] eqn:E; crunch; rewrite E; crunch.
  - split; [done|]. intros s2 fault t.
    destruct (sockets s2 !! ws) as [[j []]|]; crunch; destruct fault; crunch; eauto.
  - done.
Qed.

(** Scenario D: a result for a job nobody listens to. *)
Example deliver_without_listener :
  option_map (λ s, (map t_pc (tasks s), count (is_sent 0) (trace s)))
    (run [LExecute (demo_params "/out/final.mp4") 7;
          LProcessJob 0;
          LBackend 0 (failing_world "boom");
          LExecute (demo_params "/out/next.mp4") 9] initial_state)
  = Some ([PjDone None; PjCreated], 0).
Proof. vm_compute. reflexivity. Qed.

(** ** Admission *)

(** C9, as the code has it: for every request body, in every state,
    [execute_workflow] returns the response with the keys [status] and
    [job_id], the latter the text of the fresh UUID; it adds the job as a
    task that has not run yet and a line on the console, and touches
    neither the lock nor the registry, the files or the trace.  In a
    reachable state the step is there for every body, and when the response
    is out the new job has neither arrived at the lock nor started. *)
Theorem C9_admission_response (job_params : pyval) (random : Z) (s : State) :
  execute_workflow job_params random s =
    (inr (PDict [("status", PStr "success"); ("job_id", PStr (uuid4_str random))]),
     MkState (processing_lock s) (active_connections s)
       (tasks s ++ [Task (uuid4_str random) job_params PjCreated])
       (sockets s) (fs s)
       (JOB_RECEIVED (uuid4_str random) job_params :: console s) (trace s))
  ∧ (reachable s → (0 ≤ random < 2 ^ 128)%Z →
     ∃ s', step (LExecute job_params random) s = Some s'
       ∧ head (trace s') =
           Some (EvResponse (length (tasks s))
                   (PDict [("status", PStr "success");
                           ("job_id", PStr (uuid4_str random))]))
       ∧ pc_of s' (length (tasks s)) = Some PjCreated
       ∧ when (is_reach (length (tasks s))) (trace s') = None
       ∧ when (is_start (length (tasks s))) (trace s') = None
       ∧ processing_lock s' = processing_lock s).
Proof.
  split; [reflexivity|]. intros R Hr.
  assert (step (LExecute job_params random) s =
    Some (MkState (processing_lock s) (active_connections s)
       (tasks s ++ [Task (uuid4_str random) job_params PjCreated])
       (sockets s) (fs s)
       (JOB_RECEIVED (uuid4_str random) job_params :: console s)
       (EvResponse (length (tasks s))
          (PDict [("status", PStr "success"); ("job_id", PStr (uuid4_str random))])
          :: trace s))) as Hs.
  { simpl. by rewrite decide_True. }
  eexists. split; [exact Hs|].
  pose proof (Inv_reachable _ R) as I.
  assert (phase_of (pc_of s (length (tasks s))) = PhNew) as Hnew.
  { unfold pc_of. by rewrite lookup_ge_None_2. }
  split_and!; try done.
  - unfold pc_of. simpl. by rewrite list_lookup_middle.
  - simpl. by apply (gi_reach _ _ _ I).
  - simpl. destruct (when (is_start (length (tasks s))) (trace s)) eqn:E; [|done].
    assert (is_Some (when (is_start (length (tasks s))) (trace s))) as HS
      by (rewrite E; eauto).
    apply (gi_start _ _ _ I) in HS. simpl in HS. rewrite Hnew in HS.
    by destruct HS.
Qed.

Lemma C9_admission_response_witness :
  execute_workflow (demo_params "/out/final.mp4") 7 (state_after two_jobs_run) =
    (inr (PDict [("status", PStr "success"); ("job_id", PStr (uuid4_str 7))]),
     MkState (processing_lock (state_after two_jobs_run))
       (active_connections (state_after two_jobs_run))
       (tasks (state_after two_jobs_run)
          ++ [Task (uuid4_str 7) (demo_params "/out/final.mp4") PjCreated])
       (sockets (state_after two_jobs_run)) (fs (state_after two_jobs_run))
       (JOB_RECEIVED (uuid4_str 7) (demo_params "/out/final.mp4")
          :: console (state_after two_jobs_run))
       (trace (state_after two_jobs_run)))
  ∧ ∃ s', step (LExecute (demo_params "/out/final.mp4") 7)
            (state_after two_jobs_run) = Some s'
       ∧ head (trace s') =
           Some (EvResponse (length (tasks (state_after two_jobs_run)))
                   (PDict [("status", PStr "success");
                           ("job_id", PStr (uuid4_str 7))]))
       ∧ pc_of s' (length (tasks (state_after two_jobs_run))) = Some PjCreated
       ∧ when (is_reach (length (tasks (state_after two_jobs_run)))) (trace s') = None
       ∧ when (is_start (length (tasks (state_after two_jobs_run)))) (trace s') = None
       ∧ processing_lock s' = processing_lock (state_after two_jobs_run).
Proof.
  destruct (C9_admission_response (demo_params "/out/final.mp4") 7
              (state_after two_jobs_run)) as [H1 H2].
  split; [exact H1|]. apply H2.
  - apply (run_reachable two_jobs_run). vm_compute. reflexivity.
  - lia.
Defined.

(** The response has the key [job_id] and no key [handle]: C9 as stated
    fails on the name of the key. *)
Lemma C9_no_handle_key :
  fst (execute_workflow PNone 0 initial_state) =
    inr (PDict [("status", PStr "success");
                ("job_id", PStr "00000000-0000-4000-8000-000000000000")])
  ∧ ¬ ∃ h, fst (execute_workflow PNone 0 initial_state) =
             inr (PDict [("status", PStr "success"); ("handle", PStr h)]).
Proof.
  split; [vm_compute; reflexivity|]. intros [h Hh]. discriminate Hh.
Qed.

(** ** The registry *)

(** C10. [disconnect] looks at the job id only.  When socket [w1], opened
    for job id [h], loses its peer while the registry holds another socket
    [w2] under [h], the entry of [w2] is removed: [w2] stays open and
    listening but a result for [h] is no longer sent to it.  Registering
    overwrites: after [accept] the registry holds the socket just accepted,
    whatever it held before. *)
Theorem C10_disconnect_by_handle (s : State) (h : string) (w1 w2 : nat) :
  sockets s !! w1 = Some (Socket h WsListening) →
  active_connections s !! h = Some w2 →
  w1 ≠ w2 →
  (∃ s', step (LWsReceive w1 None) s = Some s'
     ∧ active_connections s' !! h = None
     ∧ sockets s' !! w2 = sockets s !! w2
     ∧ sockets s' !! w1 = Some (Socket h (WsClosed None))
     ∧ ∀ data, ConnectionManager.send_result_begin h data s' = (inr None, s'))
  ∧ (∀ w3, sockets s !! w3 = Some (Socket h WsAccepting) →
       ∃ s', step (LWsAccepted w3 None) s = Some s'
         ∧ active_connections s' !! h = Some w3).
Proof.
  intros E1 E2 Hne. split.
  - simpl. rewrite E1. eexists. split; [done|].
    unfold websocket_endpoint_received, ConnectionManager.disconnect, receive_text,
      ConnectionManager.send_result_begin.
    crunch. rewrite E2. crunch.
    split_and!.
    + by rewrite lookup_delete_eq.
    + by rewrite list_lookup_alter_ne.
    + by rewrite list_lookup_alter_eq, E1.
    + intros data. by rewrite lookup_delete_eq.
  - intros w3 E3. simpl. rewrite E3. eexists. split; [done|].
    unfold websocket_endpoint_accepted, ConnectionManager.connect. crunch.
    by rewrite lookup_insert_eq.
Qed.

Lemma C10_disconnect_by_handle_witness :
  (∃ s', step (LWsReceive 0 None) (state_after two_listeners_run) = Some s'
     ∧ active_connections s' !! "job" = None
     ∧ sockets s' !! 1 = sockets (state_after two_listeners_run) !! 1
     ∧ sockets s' !! 0 = Some (Socket "job" (WsClosed None))
     ∧ ∀ data, ConnectionManager.send_result_begin "job" data s' = (inr None, s'))
  ∧ (∀ w3, sockets (state_after two_listeners_run) !! w3
             = Some (Socket "job" WsAccepting) →
       ∃ s', step (LWsAccepted w3 None) (state_after two_listeners_run) = Some s'
         ∧ active_connections s' !! "job" = Some w3).
Proof.
  apply (C10_disconnect_by_handle (state_after two_listeners_run) "job" 0 1).
  - vm_compute. reflexivity.
  - vm_compute. reflexivity.
  - lia.
Defined.

(** ** One result, one message *)

Lemma step_sent s t j p ws d pending fault :
  tasks s !! t = Some (Task j p (PjSending ws d pending)) →
  ∃ c, step (LSent t fault) s =
    Some (MkState (processing_lock s) (active_connections s)
            (alter (with_pc (PjDone pending)) t (tasks s)) (sockets s) (fs s) c
            (if send_ok s ws fault then EvSent ws t d :: trace s else trace s)).
Proof.
  intros E. simpl. rewrite E.
  destruct (process_job_sent_effect t (Task j p (PjSending ws d pending))
              ws d pending fault s) as (c & ->). eauto.
Qed.

Lemma final_result_matches w p s0 :
  payload_matches (fst (run_musetalk_inference w p s0))
    (final_result_of (fst (run_musetalk_inference w p s0))).
Proof.
  destruct (run_musetalk_inference w p s0) as [[e|out] s1] eqn:E; simpl; [done|].
  apply run_musetalk_inference_success in E
    as (? & ? & ? & ? & dst & ? & _ & _ & _ & _ & -> & _). eauto.
Qed.

(** C8. For every job of a reachable state: at most one result is
    produced, and exactly one once the backend call is over; at most one
    message is sent for the job; a message sent is the job's result, and the
    result is the payload of the outcome of the job's one backend call
    (success payload for a returned path, failure payload for an
    exception).  If a socket is registered under the job id when the result
    is produced, the task goes on to send on that socket, and if the socket
    is still listening and the send goes through, the socket receives the
    result, as the only message of that job. *)
Theorem C8_exactly_one_result (s : State) (t : nat) :
  reachable s →
  count (is_result t) (trace s) ≤ 1
  ∧ count (is_finish t) (trace s) ≤ 1
  ∧ (idle (lphase_of (pc_of s t)) = false → count (is_result t) (trace s) = 1)
  ∧ count (is_sent t) (trace s) ≤ 1
  ∧ (∀ ws d, EvSent ws t d ∈ trace s → EvResult t d ∈ trace s)
  ∧ (∀ d, EvResult t d ∈ trace s →
       ∃ r p w s0, EvFinish t r ∈ trace s
         ∧ t_job_params <$> tasks s !! t = Some p
         ∧ r = fst (run_musetalk_inference w p s0)
         ∧ payload_matches r d)
  ∧ (∀ j p w ws,
       tasks s !! t = Some (Task j p PjRunning) →
       active_connections s !! j = Some ws →
       ∃ s', step (LBackend t w) s = Some s'
         ∧ pc_of s' t =
             Some (PjSending ws
                     (final_result_of (fst (run_musetalk_inference w p s))) None))
  ∧ (∀ j p ws d pending fault,
       tasks s !! t = Some (Task j p (PjSending ws d pending)) →
       send_ok s ws fault = true →
       ∃ s', step (LSent t fault) s = Some s'
         ∧ head (trace s') = Some (EvSent ws t d)
         ∧ count (is_sent t) (trace s') = 1
         ∧ pc_of s' t = Some (PjDone None)).
Proof.
  intros R. pose proof (Inv_reachable _ R) as I. pose proof (Led_reachable _ R) as L.
  pose proof (lg_results _ _ _ L t) as Hres.
  pose proof (lg_finishes _ _ _ L t) as Hfin.
  pose proof (lg_sent _ _ _ L t) as Hsent. cbv beta in *.
  split_and!.
  - rewrite Hres. destruct (idle _); lia.
  - rewrite Hfin. destruct (idle _); lia.
  - intros Hi. by rewrite Hres, Hi.
  - clear -Hsent. unfold pc_of in Hsent.
    destruct (tasks s !! t) as [[? ? []]|]; simpl in Hsent; lia.
  - intros ws d. apply (lg_sent_result _ _ _ L).
  - intros d Hd.
    destruct (lg_result_finish _ _ _ L _ _ Hd) as (r & Hr & ->).
    destruct (lg_finish_outcome _ _ _ L _ _ Hr) as (p & w & s0 & Hp & ->).
    exists (fst (run_musetalk_inference w p s0)), p, w, s0.
    split_and!; try done. apply final_result_matches.
  - intros j p w ws E Hc. destruct (step_backend s t j p w I E) as (c & Hs).
    eexists. split; [exact Hs|]. erewrite pc_of_alter by done.
    unfold after_result. by rewrite Hc.
  - intros j p ws d pending fault E Hok.
    destruct (step_sent s t j p ws d pending fault E) as (c & Hs).
    rewrite Hok in Hs. eexists. split; [exact Hs|]. simpl.
    unfold pc_of in Hsent. rewrite E in Hsent. simpl in Hsent.
    pose proof (lg_noescape _ _ _ L t) as Hn. cbv beta in Hn.
    unfold pc_of in Hn. rewrite E in Hn. simpl in Hn.
    split_and!.
    + done.
    + by rewrite Nat.eqb_refl, Hsent.
    + erewrite pc_of_alter by done. by destruct pending.
Qed.

Lemma C8_exactly_one_result_witness :
  count (is_result 0) (trace (state_after demo_run)) ≤ 1
  ∧ count (is_finish 0) (trace (state_after demo_run)) ≤ 1
  ∧ (idle (lphase_of (pc_of (state_after demo_run) 0)) = false →
     count (is_result 0) (trace (state_after demo_run)) = 1)
  ∧ count (is_sent 0) (trace (state_after demo_run)) ≤ 1
  ∧ (∀ ws d, EvSent ws 0 d ∈ trace (state_after demo_run) →
             EvResult 0 d ∈ trace (state_after demo_run))
  ∧ (∀ d, EvResult 0 d ∈ trace (state_after demo_run) →
       ∃ r p w s0, EvFinish 0 r ∈ trace (state_after demo_run)
         ∧ t_job_params <$> tasks (state_after demo_run) !! 0 = Some p
         ∧ r = fst (run_musetalk_inference w p s0)
         ∧ payload_matches r d)
  ∧ (∀ j p w ws,
       tasks (state_after demo_run) !! 0 = Some (Task j p PjRunning) →
       active_connections (state_after demo_run) !! j = Some ws →
       ∃ s', step (LBackend 0 w) (state_after demo_run) = Some s'
         ∧ pc_of s' 0 =
             Some (PjSending ws
                     (final_result_of
                        (fst (run_musetalk_inference w p (state_after demo_run))))
                     None))
  ∧ (∀ j p ws d pending fault,
       tasks (state_after demo_run) !! 0 = Some (Task j p (PjSending ws d pending)) →
       send_ok (state_after demo_run) ws fault = true →
       ∃ s', step (LSent 0 fault) (state_after demo_run) = Some s'
         ∧ head (trace s') = Some (EvSent ws 0 d)
         ∧ count (is_sent 0) (trace s') = 1
         ∧ pc_of s' 0 = Some (PjDone None)).
Proof.
  apply C8_exactly_one_result.
  apply (run_reachable demo_run). vm_compute. reflexivity.
Defined.

(** Scenario A and B together: the listener of the first job gets the
    success payload once; nobody listens for the second. *)
Example demo_messages :
  option_map (λ s, filter (λ e, quiet e = true ∧ hushed e = false) (trace s))
    (run demo_run initial_state)
  = Some [EvResult 1 (PDict [("format", PStr "error"); ("error", PStr "boom")]);
          EvRelease 1;
          EvSent 0 0 (PDict [("format", PStr "filePath");
                             ("data", PStr "/out/final.mp4");
                             ("filename", PStr "final.mp4")]);
          EvResult 0 (PDict [("format", PStr "filePath");
                             ("data", PStr "/out/final.mp4");
                             ("filename", PStr "final.mp4")]);
          EvRelease 0].
Proof. vm_compute. reflexivity. Qed.

(** ** Job ids *)

Lemma hex_value_digit d : (0 ≤ d < 16)%Z → hex_value (hex_digit d) = d.
Proof.
  intros Hd.
  assert (d = 0 ∨ d = 1 ∨ d = 2 ∨ d = 3 ∨ d = 4 ∨ d = 5 ∨ d = 6 ∨ d = 7 ∨ d = 8
          ∨ d = 9 ∨ d = 10 ∨ d = 11 ∨ d = 12 ∨ d = 13 ∨ d = 14 ∨ d = 15)%Z
    as H by lia.
  repeat (destruct H as [->|H]; [reflexivity|]). by subst.
Qed.

Lemma hex_digits_length k n : length (hex_digits k n) = k.
Proof.
  revert n. induction k as [|k IH]; intros n; simpl; [done|].
  rewrite length_app, IH. simpl. lia.
Qed.

Lemma hex_digits_inj k a b :
  (0 ≤ a < 16 ^ Z.of_nat k)%Z → (0 ≤ b < 16 ^ Z.of_nat k)%Z →
  hex_digits k a = hex_digits k b → a = b.
Proof.
  revert a b. induction k as [|k IH]; intros a b Ha Hb H.
  - simpl in *. lia.
  - simpl in H. apply app_inj_tail in H as [H1 H2].
    rewrite Nat2Z.inj_succ, Z.pow_succ_r in Ha, Hb by lia.
    apply IH in H1; [|split; [apply Z.div_pos; lia|apply Z.div_lt_upper_bound; lia]..].
    assert (a mod 16 = b mod 16)%Z as H3.
    { rewrite <- (hex_value_digit (a mod 16)), <- (hex_value_digit (b mod 16))
        by (apply Z.mod_pos_bound; lia). congruence. }
    rewrite (Z.div_mod a 16), (Z.div_mod b 16) by lia. congruence.
Qed.

Lemma uuid_ungroup_group h : length h = 32 → uuid_ungroup (uuid_group h) = h.
Proof.
  intros H.
  do 32 (destruct h as [|? h]; [simpl in H; lia|]).
  destruct h; [reflexivity|simpl in H; lia].
Qed.

Lemma uuid4_int_range r :
  (0 ≤ r < 2 ^ 128)%Z → (0 ≤ uuid4_int r < 2 ^ 128)%Z.
Proof.
  intros [H0 H1].
  assert (0 ≤ uuid4_int r)%Z as Hnn.
  { unfold uuid4_int. apply Z.lor_nonneg. split; [|done].
    apply Z.land_nonneg. left. apply Z.lor_nonneg. split; [|done].
    apply Z.land_nonneg. by left. }
  split; [done|].
  apply (Z.bounded_iff_bits_nonneg 128); [lia|done|].
  intros l Hl.
  assert (Z.testbit r l = false) as Hr
    by (by apply (Z.bounded_iff_bits_nonneg 128 r)).
  unfold uuid4_int.
  rewrite Z.lor_spec, Z.land_spec, Z.lor_spec, Z.land_spec, Hr.
  rewrite !Z.shiftl_spec by lia.
  assert (Z.testbit 32768 (l - 48) = false) as ->.
  { apply Z.bits_above_log2; [lia|]. change (Z.log2 32768) with 15%Z. lia. }
  assert (Z.testbit 4 (l - 76) = false) as ->.
  { apply Z.bits_above_log2; [lia|]. change (Z.log2 4) with 2%Z. lia. }
  done.
Qed.

Lemma uuid4_str_inj a b :
  (0 ≤ a < 2 ^ 128)%Z → (0 ≤ b < 2 ^ 128)%Z →
  uuid4_str a = uuid4_str b → uuid4_int a = uuid4_int b.
Proof.
  intros Ha%uuid4_int_range Hb%uuid4_int_range H. unfold uuid4_str in H.
  apply (f_equal list_ascii_of_string) in H.
  rewrite !list_ascii_of_string_of_list_ascii in H.
  apply (f_equal uuid_ungroup) in H. unfold uuid_chars in H.
  rewrite !uuid_ungroup_group in H by apply hex_digits_length.
  apply (hex_digits_inj 32); [by change (16 ^ Z.of_nat 32)%Z with (2 ^ 128)%Z..|done].
Qed.

Lemma job_ids_alter (ts : list task) t pc :
  map t_job_id (alter (with_pc pc) t ts) = map t_job_id ts.
Proof.
  revert t. induction ts as [|k ts IH]; intros t; [by destruct t|].
  destruct t as [|t]; simpl; [done|]. f_equal. apply IH.
Qed.

Lemma job_ids_effect l s s' :
  effect s l s' →
  map t_job_id (tasks s') = map t_job_id (tasks s) ++ map uuid4_str (draws [l])
  ∧ Forall (λ r, 0 ≤ r < 2 ^ 128)%Z (draws [l]).
Proof.
  intros H. destruct H; simpl; rewrite ?job_ids_alter, ?app_nil_r; try done.
  - rewrite map_app. split; [done|]. by constructor.
  - destruct l; try done; simpl; by rewrite app_nil_r.
Qed.

Lemma draws_cons l ls : draws (l :: ls) = draws [l] ++ draws ls.
Proof. by destruct l. Qed.

Lemma job_ids_run ls s s' :
  Inv s → run ls s = Some s' →
  map t_job_id (tasks s') = map t_job_id (tasks s) ++ map uuid4_str (draws ls)
  ∧ Forall (λ r, 0 ≤ r < 2 ^ 128)%Z (draws ls).
Proof.
  revert s. induction ls as [|l ls IH]; intros s I H.
  - simpl in *. simplify_eq. by rewrite app_nil_r.
  - simpl in H. destruct (step l s) as [s1|] eqn:E; [|done].
    pose proof (step_effect _ _ _ I E) as Hs.
    destruct (IH s1 (Inv_effect _ _ _ I Hs) H) as [H1 H2].
    destruct (job_ids_effect _ _ _ Hs) as [H3 H4].
    rewrite draws_cons, H1, H3, List.map_app, app_assoc.
    split; [done|]. by apply Forall_app.
Qed.

(** C7, as the code has it: the job ids of a run are the texts of the
    UUIDs made from the random numbers its admissions drew, in order, and
    they are pairwise distinct exactly when those UUIDs are.  Nothing in
    the program compares a new id with the ids issued before. *)
Theorem C7_job_ids_from_draws (ls : list label) (s : State) :
  run ls initial_state = Some s →
  map t_job_id (tasks s) = map uuid4_str (draws ls)
  ∧ (NoDup (map uuid4_int (draws ls)) ↔ NoDup (map t_job_id (tasks s))).
Proof.
  intros H. destruct (job_ids_run ls initial_state s Inv_initial H) as [H1 H2].
  simpl in H1. split; [done|]. rewrite H1.
  set (str := λ n, string_of_list_ascii (uuid_chars n)).
  assert (map uuid4_str (draws ls) = str <$> (map uuid4_int (draws ls))) as ->.
  { rewrite <- list_fmap_compose. done. }
  split; [|apply NoDup_fmap_1].
  apply NoDup_fmap_2_strong. intros x y Hx Hy Heq.
  apply list_elem_of_fmap in Hx as (a & -> & Ha), Hy as (b & -> & Hb).
  rewrite Forall_forall in H2.
  apply uuid4_str_inj; [by apply H2|by apply H2|done].
Qed.

Lemma C7_job_ids_from_draws_witness :
  map t_job_id (tasks (state_after demo_run)) = map uuid4_str (draws demo_run)
  ∧ (NoDup (map uuid4_int (draws demo_run))
     ↔ NoDup (map t_job_id (tasks (state_after demo_run)))).
Proof.
  apply C7_job_ids_from_draws. vm_compute. reflexivity.
Defined.

(** Two admissions that draw the same random bytes get the same job id. *)
Lemma C7_repeated_draw :
  run [LExecute PNone 5; LExecute PNone 5] initial_state
    = Some (state_after [LExecute PNone 5; LExecute PNone 5])
  ∧ map t_job_id (tasks (state_after [LExecute PNone 5; LExecute PNone 5]))
    = ["00000000-0000-4000-8000-000000000005";
       "00000000-0000-4000-8000-000000000005"]
  ∧ ¬ NoDup (map t_job_id (tasks (state_after [LExecute PNone 5; LExecute PNone 5]))).
Proof.
  split; [vm_compute; reflexivity|].
  assert (map t_job_id (tasks (state_after [LExecute PNone 5; LExecute PNone 5]))
          = ["00000000-0000-4000-8000-000000000005";
             "00000000-0000-4000-8000-000000000005"]) as E
    by (vm_compute; reflexivity).
  split; [exact E|]. rewrite E. intros H. apply NoDup_cons in H as [H _].
  apply H. left.
Qed.

(** ** More about the registry and the endpoints *)

(** X1. [disconnect] answers normally for every job id.  Afterwards the
    registry has no entry under that id and the entries under other ids are
    as before; a second [disconnect] changes nothing at all; and when there
    was no entry the first one changed nothing either (no line is printed). *)
Theorem X1_disconnect_idempotent (h : string) (s : State) :
  fst (ConnectionManager.disconnect h s) = inr tt
  ∧ active_connections (snd (ConnectionManager.disconnect h s)) !! h = None
  ∧ (∀ h', h' ≠ h →
       active_connections (snd (ConnectionManager.disconnect h s)) !! h'
       = active_connections s !! h')
  ∧ ConnectionManager.disconnect h (snd (ConnectionManager.disconnect h s))
    = (inr tt, snd (ConnectionManager.disconnect h s))
  ∧ match active_connections s !! h with
    | None => snd (ConnectionManager.disconnect h s) = s
    | Some _ =>
        console (snd (ConnectionManager.disconnect h s)) = WS_DCONN h :: console s
    end.
Proof.
  unfold ConnectionManager.disconnect. crunch.
  destruct (active_connections s !! h) as [ws|] eqn:E; crunch.
  - rewrite lookup_delete_eq. split_and!; try done.
    intros h' Hne. by rewrite lookup_delete_ne.
  - rewrite E. split_and!; done.
Qed.

(** X2. When [websocket.accept()] raises, [websocket_endpoint] ends with
    that exception before anything is registered: the registry and the
    console are as before, the socket is closed, and its handler takes no
    further step. *)
Theorem X2_failed_accept_registers_nothing (s : State) (ws : nat) (h : string)
    (e : exn) :
  sockets s !! ws = Some (Socket h WsAccepting) →
  ∃ s', step (LWsAccepted ws (Some e)) s = Some s'
    ∧ active_connections s' = active_connections s
    ∧ console s' = console s
    ∧ sockets s' !! ws = Some (Socket h (WsClosed (Some e)))
    ∧ (∀ frame, step (LWsReceive ws frame) s' = None)
    ∧ (∀ fault, step (LWsAccepted ws fault) s' = None).
Proof.
  intros E. simpl. rewrite E. eexists. split; [done|].
  unfold websocket_endpoint_accepted, ConnectionManager.connect. crunch.
  rewrite list_lookup_alter_eq, E. simpl. done.
Qed.

Lemma X2_failed_accept_registers_nothing_witness :
  ∃ s', step (LWsAccepted 2 (Some (RuntimeError "refused")))
          (state_after two_listeners_run) = Some s'
    ∧ active_connections s' = active_connections (state_after two_listeners_run)
    ∧ console s' = console (state_after two_listeners_run)
    ∧ sockets s' !! 2 = Some (Socket "job" (WsClosed (Some (RuntimeError "refused"))))
    ∧ (∀ frame, step (LWsReceive 2 frame) s' = None)
    ∧ (∀ fault, step (LWsAccepted 2 fault) s' = None).
Proof.
  apply (X2_failed_accept_registers_nothing (state_after two_listeners_run) 2 "job").
  vm_compute. reflexivity.
Defined.

(** X3. A listener that goes away while [send_json] of a job's result is
    pending on its socket does not fail the job: the endpoint's handler
    ends, the send on the closed socket raises, the exception is swallowed
    with one [ERROR] line, nothing is sent, the lock is not touched and the
    task ends with no exception. *)
Theorem X3_listener_leaves_during_send (s : State) (t ws : nat) (j h : string)
    (p d : pyval) (fault : option exn) :
  tasks s !! t = Some (Task j p (PjSending ws d None)) →
  sockets s !! ws = Some (Socket h WsListening) →
  ∃ s', run [LWsReceive ws None; LSent t fault] s = Some s'
    ∧ pc_of s' t = Some (PjDone None)
    ∧ trace s' = trace s
    ∧ processing_lock s' = processing_lock s
    ∧ ∃ e c, console s' = ERROR_send j e :: c.
Proof.
  intros Et Ew. simpl. rewrite Ew.
  unfold websocket_endpoint_received, ConnectionManager.disconnect, receive_text.
  crunch.
  destruct (active_connections s !! h) eqn:Eh; crunch; rewrite Et;
    unfold process_job_sent, ConnectionManager.send_result_resume,
      websocket_send_json; crunch;
    rewrite list_lookup_alter_eq, Ew; crunch;
    (eexists; split; [done|]); unfold pc_of; simpl;
    rewrite list_lookup_alter_eq, Et; simpl; eauto 10.
Qed.

Lemma X3_listener_leaves_during_send_witness :
  ∃ s', run [LWsReceive 0 None; LSent 0 None] (state_after sending_run) = Some s'
    ∧ pc_of s' 0 = Some (PjDone None)
    ∧ trace s' = trace (state_after sending_run)
    ∧ processing_lock s' = processing_lock (state_after sending_run)
    ∧ ∃ e c, console s' = ERROR_send (uuid4_str 7) e :: c.
Proof.
  apply (X3_listener_leaves_during_send (state_after sending_run) 0 0 (uuid4_str 7)
           (uuid4_str 7) (demo_params "/out/final.mp4")
           (PDict [("format", PStr "filePath"); ("data", PStr "/out/final.mp4");
                   ("filename", PStr "final.mp4")]) None).
  - vm_compute. reflexivity.
  - vm_compute. reflexivity.
Defined.

(** ** More about the backend invoker *)



(** X5. With the client connected and [handle_file] accepting its
    arguments, a request body that is a JSON object lacking one of the seven
    fields read before the backend call fails with the [KeyError] of the
    first such field in reading order.  The backend is not called: the
    invoker prints its start line and the error line and changes nothing
    else. *)
Theorem X5_first_missing_field (w : world) (d : list (string * pyval)) (k : string)
    (s : State) :
  w_client w = None →
  (∀ v, ∃ v', w_handle_file w v = inr v') →
  first_missing_in required_fields d = Some k →
  run_musetalk_inference w (PDict d) s =
    (inl (KeyError (py_repr_str k)),
     set_console (ERROR_inference (KeyError (py_repr_str k))
                    :: Starting_inference :: console s) s).
Proof.
  intros Hc Hh Hm. unfold run_musetalk_inference, Client, py_getitem. rewrite Hc.
  unfold required_fields in Hm. simpl in Hm.
  destruct s as [lk ac ts sk f c tr]. crunch.
  repeat (match type of Hm with
          | context [assoc_get ?x d] => destruct (assoc_get x d) eqn:?
          end;
          [|simplify_eq; crunch; reflexivity]; crunch;
          try match goal with
              | |- context [w_handle_file w ?v] => destruct (Hh v) as [? ->]; crunch
              end).
  done.
Qed.

Lemma X5_first_missing_field_witness :
  run_musetalk_inference (demo_world "/tmp/x.mp4")
    (PDict [("audio_path", PStr "/in/a.wav"); ("bbox_shift", PInt 0)]) initial_state =
    (inl (KeyError (py_repr_str "video_path")),
     set_console (ERROR_inference (KeyError (py_repr_str "video_path"))
                    :: Starting_inference :: console initial_state) initial_state).
Proof.
  apply X5_first_missing_field.
  - reflexivity.
  - intros v. exists v. reflexivity.
  - reflexivity.
Defined.

(** X6. With the client connected, a request body that is not a JSON
    object (a list, a string, a number, true, false or null) fails with a
    [TypeError] at the first field access; the backend is not called. *)
Theorem X6_body_not_an_object (w : world) (p : pyval) (s : State) :
  w_client w = None →
  is_dict p = false →
  ∃ msg,
    run_musetalk_inference w p s =
      (inl (TypeError msg),
       set_console (ERROR_inference (TypeError msg)
                      :: Starting_inference :: console s) s).
Proof.
  intros Hc Hd. unfold run_musetalk_inference, Client. rewrite Hc.
  destruct s as [lk ac ts sk f c tr].
  destruct p; try done; crunch; eexists; reflexivity.
Qed.

Lemma X6_body_not_an_object_witness :
  ∃ msg,
    run_musetalk_inference (demo_world "/tmp/x.mp4") (PList [PInt 1]) initial_state =
      (inl (TypeError msg),
       set_console (ERROR_inference (TypeError msg)
                      :: Starting_inference :: console initial_state) initial_state).
Proof.
  apply X6_body_not_an_object; reflexivity.
Defined.

(** X7. When the backend's reply holds no video path (the entry is
    missing, [None] or empty), the invocation fails with the [ValueError]
    of the source before it looks at [output_file_path] and before any
    rename: this is so whether or not the body has an output path. *)
Theorem X7_missing_artifact (w : world) (d : list (string * pyval))
    (result info v : pyval) (s : State) :
  w_client w = None →
  (∀ x, ∃ x', w_handle_file w x = inr x') →
  first_missing_in required_fields d = None →
  (∀ kwargs, w_predict w kwargs = inr result) →
  py_getitem0 result = inr info →
  py_get info "video" = inr v →
  py_truthy v = false →
  run_musetalk_inference w (PDict d) s =
    (inl (ValueError "Inference did not return a video file path."),
     set_console
       (ERROR_inference (ValueError "Inference did not return a video file path.")
          :: Inference_successful result :: Starting_inference :: console s) s).
Proof.
  intros Hc Hh Hm Hp H0 Hg Ht. unfold run_musetalk_inference, Client, py_getitem.
  rewrite Hc. unfold required_fields in Hm. simpl in Hm.
  destruct s as [lk ac ts sk f c tr]. crunch.
  repeat (match type of Hm with
          | context [assoc_get ?x d] => destruct (assoc_get x d) eqn:?
          end;
          [|discriminate Hm]; crunch;
          try match goal with
              | |- context [w_handle_file w ?x] => destruct (Hh x) as [? ->]; crunch
              end).
  rewrite Hp. crunch. rewrite H0. crunch. rewrite Hg. crunch. rewrite Ht. crunch.
  reflexivity.
Qed.

Lemma X7_missing_artifact_witness :
  run_musetalk_inference empty_reply_world no_output_params initial_state =
    (inl (ValueError "Inference did not return a video file path."),
     set_console
       (ERROR_inference (ValueError "Inference did not return a video file path.")
          :: Inference_successful (PList [PDict [("video", PNone)]])
          :: Starting_inference :: console initial_state) initial_state).
Proof.
  apply (X7_missing_artifact empty_reply_world _ (PList [PDict [("video", PNone)]])
           (PDict [("video", PNone)]) PNone initial_state).
  - reflexivity.
  - intros x. exists x. reflexivity.
  - reflexivity.
  - intros kwargs. reflexivity.
  - reflexivity.
  - reflexivity.
  - reflexivity.
Defined.

(** X8. A body that lacks [output_file_path] is found out only after the
    backend has run: with the seven other fields present and a reply that
    holds a video path, the invocation calls the backend, then fails with
    [KeyError('output_file_path')]; no file is renamed, so the produced
    file stays at its temporary path. *)
Theorem X8_missing_output_path (w : world) (d : list (string * pyval))
    (result info v : pyval) (s : State) :
  w_client w = None →
  (∀ x, ∃ x', w_handle_file w x = inr x') →
  first_missing_in required_fields d = None →
  (∀ kwargs, w_predict w kwargs = inr result) →
  py_getitem0 result = inr info →
  py_get info "video" = inr v →
  py_truthy v = true →
  assoc_get "output_file_path" d = None →
  run_musetalk_inference w (PDict d) s =
    (inl (KeyError "'output_file_path'"),
     set_console
       (ERROR_inference (KeyError "'output_file_path'")
          :: Inference_successful result :: Starting_inference :: console s) s).
Proof.
  intros Hc Hh Hm Hp H0 Hg Ht Ho. unfold run_musetalk_inference, Client, py_getitem.
  rewrite Hc. unfold required_fields in Hm. simpl in Hm.
  destruct s as [lk ac ts sk f c tr]. crunch.
  repeat (match type of Hm with
          | context [assoc_get ?x d] => destruct (assoc_get x d) eqn:?
          end;
          [|discriminate Hm]; crunch;
          try match goal with
              | |- context [w_handle_file w ?x] => destruct (Hh x) as [? ->]; crunch
              end).
  rewrite Hp. crunch. rewrite H0. crunch. rewrite Hg. crunch. rewrite Ht, Ho. crunch.
  reflexivity.
Qed.

Lemma X8_missing_output_path_witness :
  run_musetalk_inference (demo_world "/tmp/x.mp4") no_output_params
    (set_fs {[ "/tmp/x.mp4" := 1 ]} initial_state) =
    (inl (KeyError "'output_file_path'"),
     set_console
       (ERROR_inference (KeyError "'output_file_path'")
          :: Inference_successful (PList [PDict [("video", PStr "/tmp/x.mp4")]; PNone])
          :: Starting_inference
          :: console (set_fs {[ "/tmp/x.mp4" := 1 ]} initial_state))
       (set_fs {[ "/tmp/x.mp4" := 1 ]} initial_state)).
Proof.
  apply (X8_missing_output_path (demo_world "/tmp/x.mp4") _
           (PList [PDict [("video", PStr "/tmp/x.mp4")]; PNone])
           (PDict [("video", PStr "/tmp/x.mp4")]) (PStr "/tmp/x.mp4")).
  - reflexivity.
  - intros x. exists x. reflexivity.
  - reflexivity.
  - intros kwargs. reflexivity.
  - reflexivity.
  - reflexivity.
  - reflexivity.
  - reflexivity.
Defined.

(** ** More about jobs and the lock *)

Lemma effect_task_kept l s s' t k :
  effect s l s' →
  tasks s !! t = Some k →
  ∃ k', tasks s' !! t = Some k'
    ∧ t_job_id k' = t_job_id k ∧ t_job_params k' = t_job_params k
    ∧ (∀ x, t_pc k = PjDone x → t_pc k' = PjDone x).
Proof.
  intros H E.
  assert (∀ t0 pc k0, tasks s !! t0 = Some k0 →
            (∀ x, t_pc k = PjDone x → t0 ≠ t) →
            ∃ k', alter (with_pc pc) t0 (tasks s) !! t = Some k'
              ∧ t_job_id k' = t_job_id k ∧ t_job_params k' = t_job_params k
              ∧ (∀ x, t_pc k = PjDone x → t_pc k' = PjDone x)) as Halt.
  { intros t0 pc k0 E0 Hne. destruct (decide (t0 = t)) as [->|Hd].
    - rewrite list_lookup_alter_eq, E. eexists. split; [done|].
      split_and!; try done. intros x Hx. by destruct (Hne x Hx).
    - rewrite list_lookup_alter_ne by done. eauto. }
  destruct H; simpl; eauto.
  - exists k. by rewrite (lookup_app_l_Some _ _ _ _ E).
  - eapply Halt; [done|]. intros x Hx ->. rewrite E in H. by simplify_eq.
  - eapply Halt; [done|]. intros x Hx ->. rewrite E in H. by simplify_eq.
  - eapply Halt; [done|]. intros x Hx ->. rewrite E in H. by simplify_eq.
  - eapply Halt; [done|]. intros x Hx ->. rewrite E in H. by simplify_eq.
  - eapply Halt; [done|]. intros x Hx ->. rewrite E in H. by simplify_eq.
Qed.

Lemma effect_done_silent l s s' t k x :
  effect s l s' →
  tasks s !! t = Some k → t_pc k = PjDone x →
  count (is_sent t) (trace s') = count (is_sent t) (trace s)
  ∧ count (is_result t) (trace s') = count (is_result t) (trace s).
Proof.
  intros H E Hx. destruct H; simpl; try done.
  - assert (t ≠ t0) as Hne by (intros ->; rewrite E in H; by simplify_eq).
    by rewrite eqb_decide, bool_decide_false.
  - assert (t ≠ t0) as Hne by (intros ->; rewrite E in H; by simplify_eq).
    destruct (send_ok s ws fault); [|done]. simpl.
    by rewrite eqb_decide, bool_decide_false.
Qed.

(** X9. A finished job stays finished, and what was sent for it is final:
    from a reachable state in which the task of a job has ended, no run
    changes where the task stands, produces another result for the job or
    sends another message for it.  A listener that registers after the job's
    result was dropped never gets it. *)
Theorem X9_finished_job_is_final (s s' : State) (ls : list label) (t : nat)
    (x : option exn) :
  reachable s →
  pc_of s t = Some (PjDone x) →
  run ls s = Some s' →
  pc_of s' t = Some (PjDone x)
  ∧ count (is_sent t) (trace s') = count (is_sent t) (trace s)
  ∧ count (is_result t) (trace s') = count (is_result t) (trace s).
Proof.
  intros R%Inv_reachable. revert s R.
  induction ls as [|l ls IH]; simpl; intros s I Hpc Hrun; [by simplify_eq|].
  destruct (step l s) as [s1|] eqn:E; [|done].
  pose proof (step_effect _ _ _ I E) as He.
  unfold pc_of in Hpc. destruct (tasks s !! t) as [k|] eqn:Ek; [|done].
  simpl in Hpc. injection Hpc as Hpc.
  destruct (effect_task_kept _ _ _ _ _ He Ek) as (k' & Ek' & _ & _ & Hd).
  destruct (effect_done_silent _ _ _ _ _ _ He Ek Hpc) as [H1 H2].
  destruct (IH s1) as (G1 & G2 & G3); [by eapply Inv_effect| |done|].
  - unfold pc_of. rewrite Ek'. simpl. f_equal. by apply Hd.
  - split_and!; [done|congruence..].
Qed.

Lemma X9_finished_job_is_final_witness :
  pc_of (state_after (unheard_run ++ [LWsOpen (uuid4_str 7); LWsAccepted 0 None])) 0
    = Some (PjDone None)
  ∧ count (is_sent 0)
      (trace (state_after (unheard_run ++ [LWsOpen (uuid4_str 7); LWsAccepted 0 None])))
    = count (is_sent 0) (trace (state_after unheard_run))
  ∧ count (is_result 0)
      (trace (state_after (unheard_run ++ [LWsOpen (uuid4_str 7); LWsAccepted 0 None])))
    = count (is_result 0) (trace (state_after unheard_run)).
Proof.
  apply (X9_finished_job_is_final (state_after unheard_run) _
           [LWsOpen (uuid4_str 7); LWsAccepted 0 None] 0 None).
  - apply (run_reachable unheard_run). vm_compute. reflexivity.
  - vm_compute. reflexivity.
  - vm_compute. reflexivity.
Defined.

(** X10. The job id and the parameters of a job never change and no task
    is ever dropped: what a task holds in a reachable state it holds, under
    the same index, after every run from there. *)
Theorem X10_job_attributes_kept (s s' : State) (ls : list label) (t : nat) (k : task) :
  reachable s →
  tasks s !! t = Some k →
  run ls s = Some s' →
  ∃ k', tasks s' !! t = Some k'
    ∧ t_job_id k' = t_job_id k ∧ t_job_params k' = t_job_params k.
Proof.
  intros R%Inv_reachable. revert s k R.
  induction ls as [|l ls IH]; simpl; intros s k I Ek Hrun; [simplify_eq; eauto|].
  destruct (step l s) as [s1|] eqn:E; [|done].
  pose proof (step_effect _ _ _ I E) as He.
  destruct (effect_task_kept _ _ _ _ _ He Ek) as (k1 & Ek1 & Hj & Hp & _).
  destruct (IH s1 k1) as (k' & Ek' & Hj' & Hp'); [by eapply Inv_effect|done|done|].
  exists k'. split_and!; [done|congruence..].
Qed.

Lemma X10_job_attributes_kept_witness :
  ∃ k', tasks (state_after demo_run) !! 0 = Some k'
    ∧ t_job_id k' = t_job_id (Task (uuid4_str 7) (demo_params "/out/final.mp4") PjCreated)
    ∧ t_job_params k'
      = t_job_params (Task (uuid4_str 7) (demo_params "/out/final.mp4") PjCreated).
Proof.
  apply (X10_job_attributes_kept
           (state_after [LExecute (demo_params "/out/final.mp4") 7])
           (state_after demo_run) (tail demo_run) 0).
  - apply (run_reachable [LExecute (demo_params "/out/final.mp4") 7]).
    vm_compute. reflexivity.
  - vm_compute. reflexivity.
  - vm_compute. reflexivity.
Defined.

Lemma times_alter (ts : list task) t0 k0 pc t (f : option pj_pc → nat) :
  ts !! t0 = Some k0 →
  f (t_pc <$> alter (with_pc pc) t0 ts !! t) =
    if decide (t = t0) then f (Some pc) else f (t_pc <$> ts !! t).
Proof.
  intros E. case_decide; subst.
  - by rewrite list_lookup_alter_eq, E.
  - by rewrite list_lookup_alter_ne.
Qed.

Lemma times_snoc (ts : list task) k t :
  t_pc k = PjCreated →
  phase_of (t_pc <$> (ts ++ [k]) !! t) = phase_of (t_pc <$> ts !! t).
Proof.
  intros Hk. destruct (decide (t < length ts)).
  - by rewrite lookup_app_l.
  - rewrite (lookup_ge_None_2 ts) by lia.
    destruct (decide (t = length ts)); subst.
    + rewrite list_lookup_middle by done. simpl. by rewrite Hk.
    + rewrite lookup_ge_None_2; [done|]. rewrite length_app. simpl. lia.
Qed.

Lemma once_effect l s s' :
  effect s l s' →
  (∀ t, count (is_reach t) (trace s) = times_reached (pc_of s t)
        ∧ count (is_start t) (trace s) = times_started (pc_of s t)
        ∧ count (is_release t) (trace s) = times_released (pc_of s t)) →
  ∀ t, count (is_reach t) (trace s') = times_reached (pc_of s' t)
       ∧ count (is_start t) (trace s') = times_started (pc_of s' t)
       ∧ count (is_release t) (trace s') = times_released (pc_of s' t).
Proof.
  intros H Hs t. destruct (Hs t) as (H1 & H2 & H3). unfold pc_of in *.
  destruct H; simpl; rewrite ?eqb_decide.
  - unfold times_reached, times_started, times_released in *.
    by rewrite !times_snoc.
  - rewrite !(times_alter _ _ _ _ _ _ H). rewrite H1, H2, H3.
    case_decide; subst; [|by rewrite bool_decide_false].
    rewrite bool_decide_true by done. by rewrite H.
  - rewrite !(times_alter _ _ _ _ _ _ H). rewrite H1, H2, H3.
    case_decide; subst; [|by rewrite bool_decide_false].
    rewrite bool_decide_true by done. by rewrite H.
  - rewrite !(times_alter _ _ _ _ _ _ H). rewrite H1, H2, H3.
    case_decide; subst; [|by rewrite bool_decide_false].
    rewrite bool_decide_true by done. by rewrite H.
  - rewrite !(times_alter _ _ _ _ _ _ H). rewrite H1, H2, H3.
    case_decide; subst; [|by rewrite bool_decide_false].
    rewrite bool_decide_true by done. rewrite H. unfold after_result.
    by destruct (active_connections s !! j).
  - rewrite !(times_alter _ _ _ _ _ _ H).
    assert (count (is_reach t)
              (if send_ok s ws fault then EvSent ws t0 d :: trace s else trace s)
            = count (is_reach t) (trace s)) as -> by by destruct (send_ok s ws fault).
    assert (count (is_start t)
              (if send_ok s ws fault then EvSent ws t0 d :: trace s else trace s)
            = count (is_start t) (trace s)) as -> by by destruct (send_ok s ws fault).
    assert (count (is_release t)
              (if send_ok s ws fault then EvSent ws t0 d :: trace s else trace s)
            = count (is_release t) (trace s)) as -> by by destruct (send_ok s ws fault).
    rewrite H1, H2, H3. case_decide; subst; [|done]. by rewrite H.
  - done.
  - done.
  - done.
Qed.

(** X11. No retry: in every reachable state each job has arrived at the
    lock at most once, has had the backend called for it at most once (also
    when that call failed) and has released the lock at most once; the
    counts are those of where its task stands. *)
Theorem X11_single_attempt (s : State) (t : nat) :
  reachable s →
  count (is_reach t) (trace s) = times_reached (pc_of s t)
  ∧ count (is_start t) (trace s) = times_started (pc_of s t)
  ∧ count (is_release t) (trace s) = times_released (pc_of s t)
  ∧ count (is_start t) (trace s) ≤ 1.
Proof.
  intros [ls Hrun].
  assert (∀ t, count (is_reach t) (trace s) = times_reached (pc_of s t)
               ∧ count (is_start t) (trace s) = times_started (pc_of s t)
               ∧ count (is_release t) (trace s) = times_released (pc_of s t)) as H.
  { revert Hrun.
    assert (∀ t, count (is_reach t) (trace initial_state)
                   = times_reached (pc_of initial_state t)
               ∧ count (is_start t) (trace initial_state)
                   = times_started (pc_of initial_state t)
               ∧ count (is_release t) (trace initial_state)
                   = times_released (pc_of initial_state t)) as H0 by done.
    pose proof Inv_initial as I0. revert H0 I0. generalize initial_state.
    induction ls as [|l ls IH]; simpl; intros s0 H0 I0 Hrun; [by simplify_eq|].
    destruct (step l s0) as [s1|] eqn:E; [|done].
    pose proof (step_effect _ _ _ I0 E) as He.
    apply (IH s1); [by eapply once_effect|by eapply Inv_effect|done]. }
  destruct (H t) as (H1 & H2 & H3). split_and!; try done.
  rewrite H2. unfold times_started. destruct (phase_of _); lia.
Qed.

Lemma X11_single_attempt_witness :
  count (is_reach 1) (trace (state_after demo_run))
    = times_reached (pc_of (state_after demo_run) 1)
  ∧ count (is_start 1) (trace (state_after demo_run))
    = times_started (pc_of (state_after demo_run) 1)
  ∧ count (is_release 1) (trace (state_after demo_run))
    = times_released (pc_of (state_after demo_run) 1)
  ∧ count (is_start 1) (trace (state_after demo_run)) ≤ 1.
Proof.
  apply X11_single_attempt. apply (run_reachable demo_run). vm_compute. reflexivity.
Defined.

(** X12. The lock is never leaked and never stuck on a dead task.  In a
    reachable state the holder of the lock is a task that is about to call
    the backend or is in its backend call, and the step that takes it on
    exists; no task stands in the lock twice; and when no task is waiting
    or in its backend call the lock is free with nobody waiting. *)
Theorem X12_lock_not_leaked (s : State) :
  reachable s →
  (∀ t, holder (processing_lock s) = Some t →
     (∃ j p, tasks s !! t = Some (Task j p PjWaiting)
             ∧ ∃ s', step (LGranted t) s = Some s')
     ∨ (∃ j p, tasks s !! t = Some (Task j p PjRunning)
               ∧ ∀ w, ∃ s', step (LBackend t w) s = Some s'))
  ∧ NoDup (queue (processing_lock s))
  ∧ ((∀ t, pc_of s t ≠ Some PjWaiting ∧ pc_of s t ≠ Some PjRunning) →
     processing_lock s = MkLock None []).
Proof.
  intros I%Inv_reachable. split_and!.
  - intros t Hh.
    assert (t ∈ queue (processing_lock s)) as Hq by (unfold queue; rewrite Hh; left).
    apply (gi_queue _ _ _ I) in Hq. unfold pc_of in Hq.
    destruct (tasks s !! t) as [[j p pc]|] eqn:E; simpl in Hq;
      [|destruct Hq; done].
    destruct pc; simpl in Hq; try (destruct Hq; done).
    + left. exists j, p. split; [done|]. simpl. rewrite E.
      rewrite decide_True by done. eauto.
    + right. exists j, p. split; [done|]. intros w. simpl. rewrite E. eauto.
  - apply NoDup_alt. intros i j x Hi Hj.
    destruct (Nat.lt_trichotomy i j) as [Hlt|[->|Hlt]]; [|done|].
    + destruct (gi_sorted _ _ _ I i j x x Hlt Hi Hj) as (ra & rb & E1 & E2 & ?).
      simplify_eq. lia.
    + destruct (gi_sorted _ _ _ I j i x x Hlt Hj Hi) as (ra & rb & E1 & E2 & ?).
      simplify_eq. lia.
  - intros Hn.
    assert (queue (processing_lock s) = []) as Hq.
    { destruct (queue (processing_lock s)) as [|t q] eqn:Eq; [done|].
      assert (t ∈ queue (processing_lock s)) as Ht by (rewrite Eq; left).
      apply (gi_queue _ _ _ I) in Ht. destruct (Hn t) as [N1 N2].
      unfold pc_of in *. destruct (tasks s !! t) as [[j p []]|]; simpl in *;
        destruct Ht; done. }
    unfold queue in Hq. destruct (processing_lock s) as [[h|] ws]; simpl in *; [done|].
    by subst.
Qed.

Lemma X12_lock_not_leaked_witness :
  (∀ t, holder (processing_lock (state_after queue_run)) = Some t →
     (∃ j p, tasks (state_after queue_run) !! t = Some (Task j p PjWaiting)
             ∧ ∃ s', step (LGranted t) (state_after queue_run) = Some s')
     ∨ (∃ j p, tasks (state_after queue_run) !! t = Some (Task j p PjRunning)
               ∧ ∀ w, ∃ s', step (LBackend t w) (state_after queue_run) = Some s'))
  ∧ NoDup (queue (processing_lock (state_after queue_run)))
  ∧ ((∀ t, pc_of (state_after queue_run) t ≠ Some PjWaiting
           ∧ pc_of (state_after queue_run) t ≠ Some PjRunning) →
     processing_lock (state_after queue_run) = MkLock None []).
Proof.
  apply X12_lock_not_leaked. apply (run_reachable queue_run). vm_compute. reflexivity.
Defined.

(** X13. What a step leaves alone.  The steps of jobs (admission and the
    segments of [process_job]) change neither the registry nor the sockets:
    delivering a result deregisters nobody and closes nothing.  Files
    change only when a backend call ends (the rename) or from outside.  The
    steps of the WebSocket endpoint change neither the lock, the tasks, the
    files nor the trace, and a text frame from the peer changes nothing at
    all. *)
Theorem X13_steps_leave_alone (s s' : State) (l : label) :
  reachable s →
  step l s = Some s' →
  match l with
  | LExecute _ _ | LProcessJob _ | LGranted _ | LSent _ _ =>
      active_connections s' = active_connections s ∧ sockets s' = sockets s
      ∧ fs s' = fs s
  | LBackend _ _ =>
      active_connections s' = active_connections s ∧ sockets s' = sockets s
  | LWsReceive _ (Some _) => s' = s
  | LWsOpen _ | LWsAccepted _ _ | LWsReceive _ None =>
      processing_lock s' = processing_lock s ∧ tasks s' = tasks s
      ∧ fs s' = fs s ∧ trace s' = trace s
  | LFiles _ =>
      processing_lock s' = processing_lock s ∧ tasks s' = tasks s
      ∧ active_connections s' = active_connections s ∧ sockets s' = sockets s
      ∧ trace s' = trace s
  end.
Proof.
  intros I%Inv_reachable Hs.
  assert (∀ ws text, l = LWsReceive ws (Some text) → s' = s) as Htext.
  { intros ws text ->. simpl in Hs.
    destruct (sockets s !! ws) as [[j []]|]; try done.
    revert Hs. unfold websocket_endpoint_received, receive_text. crunch.
    intros [= <-]. by destruct s. }
  pose proof (step_effect _ _ _ I Hs) as He.
  destruct He; simpl; try done.
  destruct l; try done. destruct frame; [by eapply Htext|done].
Qed.

Lemma X13_steps_leave_alone_witness :
  active_connections
    (state_after (sending_run ++ [LSent 0 None]))
    = active_connections (state_after sending_run)
  ∧ sockets (state_after (sending_run ++ [LSent 0 None]))
    = sockets (state_after sending_run)
  ∧ fs (state_after (sending_run ++ [LSent 0 None])) = fs (state_after sending_run).
Proof.
  apply (X13_steps_leave_alone (state_after sending_run)
           (state_after (sending_run ++ [LSent 0 None])) (LSent 0 None)).
  - apply (run_reachable sending_run). vm_compute. reflexivity.
  - vm_compute. reflexivity.
Defined.

(** ** Routing *)

Lemma ws_step_exact l s s' :
  is_ws_label l = true →
  step l s = Some s' →
  s' = s
  ∨ ∃ ws j st0 st ac c,
      sockets s !! ws = Some (Socket j st0)
      ∧ s' = MkState (processing_lock s) ac (tasks s)
               (alter (with_state st) ws (sockets s)) (fs s) c (trace s)
      ∧ (ac = active_connections s
         ∨ ac = <[j := ws]> (active_connections s)
         ∨ ac = delete j (active_connections s)).
Proof.
  intros Hl Hs. destruct l as [| | | | | |ws fault|ws frame|]; try done; simpl in Hs.
  - destruct (sockets s !! ws) as [[j []]|] eqn:E; try done.
    revert Hs. unfold websocket_endpoint_accepted, ConnectionManager.connect.
    crunch. destruct fault; crunch; intros [= <-]; right;
      eexists ws, j, _, _, _, _; (split; [done|]); (split; [reflexivity|]); eauto.
  - destruct (sockets s !! ws) as [[j []]|] eqn:E; try done.
    revert Hs. unfold websocket_endpoint_received, ConnectionManager.disconnect,
      receive_text.
    crunch. destruct frame; crunch.
    + intros [= <-]. left. by destruct s.
    + destruct (active_connections s !! j); crunch; intros [= <-]; right;
        eexists ws, j, _, _, _, _; (split; [done|]); (split; [reflexivity|]); eauto.
Qed.

Lemma socket_alter_kept (sk : list socket) ws0 st w h st1 :
  sk !! w = Some (Socket h st1) →
  ∃ st', alter (with_state st) ws0 sk !! w = Some (Socket h st').
Proof.
  intros E. destruct (decide (ws0 = w)) as [->|].
  - rewrite list_lookup_alter_eq, E. simpl. eauto.
  - rewrite list_lookup_alter_ne by done. eauto.
Qed.

Lemma Routed_step l s s' : Inv s → Routed s → step l s = Some s' → Routed s'.
Proof.
  intros I [R1 R2 R3] Hs.
  destruct (is_ws_label l) eqn:Hl.
  - destruct (ws_step_exact _ _ _ Hl Hs)
      as [->|(ws & j & st0 & st & ac & c & E & -> & Hac)]; [by split|].
    split; simpl.
    + intros h w Hh.
      assert (∃ st1, sockets s !! w = Some (Socket h st1)) as [st1 E1].
      { destruct Hac as [-> | [-> | ->]].
        - by apply R1.
        - destruct (decide (j = h)) as [->|].
          + rewrite lookup_insert_eq in Hh. simplify_eq. eauto.
          + rewrite lookup_insert_ne in Hh by done. by apply R1.
        - destruct (decide (j = h)) as [->|].
          + by rewrite lookup_delete_eq in Hh.
          + rewrite lookup_delete_ne in Hh by done. by apply R1. }
      by eapply socket_alter_kept.
    + intros t j0 p w d x Ht. destruct (R2 _ _ _ _ _ _ Ht) as [st1 E1].
      by eapply socket_alter_kept.
    + intros w t d Hin. destruct (R3 _ _ _ Hin) as (k & st1 & Ek & E1).
      exists k. destruct (socket_alter_kept _ ws st _ _ _ E1) as [st' ?]. eauto.
  - pose proof (step_effect _ _ _ I Hs) as He.
    assert (∀ t0 pc k0, tasks s !! t0 = Some k0 →
              (∀ w d x, pc = PjSending w d x →
                 ∃ st, sockets s !! w = Some (Socket (t_job_id k0) st)) →
              Routed (MkState (processing_lock s) (active_connections s)
                        (alter (with_pc pc) t0 (tasks s)) (sockets s) (fs s)
                        (console s) (trace s))) as Halt.
    { intros t0 pc k0 E0 Hpc. split; simpl; [done| |].
      - intros t j p w d x Ht. destruct (decide (t0 = t)) as [->|].
        + rewrite list_lookup_alter_eq, E0 in Ht. simpl in Ht.
          injection Ht as <- <- Hx. by eapply Hpc.
        + rewrite list_lookup_alter_ne in Ht by done. by eapply R2.
      - intros w t d Hin. destruct (R3 _ _ _ Hin) as (k & st1 & Ek & E1).
        destruct (decide (t0 = t)) as [->|].
        + rewrite list_lookup_alter_eq, Ek. simpl. eexists _, _. split; [done|].
          exact E1.
        + rewrite list_lookup_alter_ne by done. eauto. }
    assert (∀ s1 lk f c tr, Routed s1 →
              (∀ e, e ∈ tr → quiet e = false ∨ hushed e = true
                             ∨ (∃ t, e = EvRelease t) ∨ (∃ t d, e = EvResult t d)
                             ∨ e ∈ trace s1) →
              Routed (MkState lk (active_connections s1) (tasks s1) (sockets s1)
                        f c tr)) as Hframe.
    { intros s1 lk f c tr [Q1 Q2 Q3] Htr. split; simpl; [done|done|].
      intros w t d Hin. destruct (Htr _ Hin) as [?|[?|[[? ?]|[(? & ? & ?)|?]]]];
        try done. by eapply Q3. }
    destruct He; simpl.
    + apply (Hframe (MkState (processing_lock s) (active_connections s)
                       (tasks s ++ [Task (uuid4_str r) p PjCreated]) (sockets s)
                       (fs s) (console s) (trace s))).
      * split; simpl; [done| |].
        -- intros t j p0 w d x Ht. apply lookup_app_Some in Ht as [Ht|[_ Ht]].
           ++ by eapply R2.
           ++ destruct (t - length (tasks s)) as [|n]; simpl in Ht; by simplify_eq.
        -- intros w t d Hin. destruct (R3 _ _ _ Hin) as (k & st1 & Ek & E1).
           exists k, st1. split; [|done]. by apply lookup_app_l_Some.
      * simpl. intros e [->|He]%elem_of_cons; pick_kind.
    + apply (Hframe _ _ _ _ _ (Halt t PjRunning _ H ltac:(done))).
      simpl. intros e [->|[->|He]%elem_of_cons]%elem_of_cons; pick_kind.
    + apply (Hframe _ _ _ _ _ (Halt t PjWaiting _ H ltac:(done))).
      simpl. intros e [->|He]%elem_of_cons; pick_kind.
    + apply (Hframe _ _ _ _ _ (Halt t PjRunning _ H ltac:(done))).
      simpl. intros e [->|He]%elem_of_cons; pick_kind.
    + eapply (Hframe _ _ _ _ _
                (Halt t (after_result s j
                           (final_result_of (fst (run_musetalk_inference w p s))))
                   _ H _)).
      simpl.
      intros e [->|[->|[->|He]%elem_of_cons]%elem_of_cons]%elem_of_cons; pick_kind.
    + destruct (R2 _ _ _ _ _ _ H) as [st1 E1].
      assert (Routed (MkState (processing_lock s) (active_connections s)
                (alter (with_pc (PjDone pending)) t (tasks s)) (sockets s) (fs s)
                (console s) (trace s))) as [Q1 Q2 Q3]
        by (eapply Halt; [done|done]).
      split; simpl; [done|done|].
      intros w t1 d1 Hin. destruct (send_ok s ws fault); [|by eapply Q3].
      apply elem_of_cons in Hin as [Heq|Hin]; [|by eapply Q3].
      simplify_eq. rewrite list_lookup_alter_eq, H. simpl. eauto.
    + split; simpl.
      * intros h w Hh. destruct (R1 _ _ Hh) as [st1 E1]. exists st1.
        by apply lookup_app_l_Some.
      * intros t j0 p w d x Ht. destruct (R2 _ _ _ _ _ _ Ht) as [st1 E1].
        exists st1. by apply lookup_app_l_Some.
      * intros w t d Hin. destruct (R3 _ _ _ Hin) as (k & st1 & Ek & E1).
        exists k, st1. split; [done|]. by apply lookup_app_l_Some.
    + destruct l; done.
    + by split.
  Unshelve.
  simpl. intros w0 d x. unfold after_result.
  destruct (active_connections s !! j) as [w1|] eqn:Ej; [|done].
  intros [= <- _ _]. by apply R1.
Qed.

Lemma Routed_initial : Routed initial_state.
Proof.
  split; simpl.
  - intros h ws H. by rewrite lookup_empty in H.
  - intros t j p ws d x H. done.
  - intros ws t d H%elem_of_nil. done.
Qed.

Lemma Routed_reachable s : reachable s → Routed s.
Proof.
  intros [ls Hrun]. revert Hrun.
  pose proof Inv_initial as I0. pose proof Routed_initial as R0.
  revert I0 R0. generalize initial_state.
  induction ls as [|l ls IH]; simpl; intros s0 I0 R0 Hrun; [by simplify_eq|].
  destruct (step l s0) as [s1|] eqn:E; [|done].
  apply (IH s1); [|by eapply Routed_step|done].
  eapply Inv_effect; [done|]. by apply step_effect.
Qed.

(** X14. No result goes astray: in every reachable state a message that
    was sent for a job went out on a socket that a peer had opened under
    that job's id; and every registry entry and every pending send is on a
    socket opened under the id it serves. *)
Theorem X14_no_misrouting (s : State) :
  reachable s →
  (∀ ws t d, EvSent ws t d ∈ trace s →
     ∃ k st, tasks s !! t = Some k ∧
             sockets s !! ws = Some (Socket (t_job_id k) st))
  ∧ (∀ h ws, active_connections s !! h = Some ws →
       ∃ st, sockets s !! ws = Some (Socket h st))
  ∧ (∀ t j p ws d x, tasks s !! t = Some (Task j p (PjSending ws d x)) →
       ∃ st, sockets s !! ws = Some (Socket j st)).
Proof.
  intros [R1 R2 R3]%Routed_reachable. done.
Qed.

Lemma X14_no_misrouting_witness :
  (∀ ws t d, EvSent ws t d ∈ trace (state_after demo_run) →
     ∃ k st, tasks (state_after demo_run) !! t = Some k ∧
             sockets (state_after demo_run) !! ws = Some (Socket (t_job_id k) st))
  ∧ (∀ h ws, active_connections (state_after demo_run) !! h = Some ws →
       ∃ st, sockets (state_after demo_run) !! ws = Some (Socket h st))
  ∧ (∀ t j p ws d x,
       tasks (state_after demo_run) !! t = Some (Task j p (PjSending ws d x)) →
       ∃ st, sockets (state_after demo_run) !! ws = Some (Socket j st)).
Proof.
  apply X14_no_misrouting. apply (run_reachable demo_run). vm_compute. reflexivity.
Defined.

(** ** From admission to delivery *)



